(** * koanf-paramstore: the SSM Parameter Store provider of koanf

    A shallow embedding of [paramstore.go] (package [paramstore]) and the
    properties of its change detection and polling.

    Conventions of the embedding.
    - A Go pointer [*T] is an [option T]; dereferencing [None] panics.
    - A call that can panic or loop for ever lives in [exec]: it returns a
      value, panics, or runs out of the fuel that bounds the number of page
      requests of one pagination pass.
    - A Go [error] value is an [option error] ([None] is [nil]).
    - The SSM client is an arbitrary deterministic state machine: a type
      [World] of service states and a transition function for the single
      request the provider issues, [GetParametersByPath].
    - [maps.Unflatten] of koanf is a parameter of the development.
    - The callback handed to [Watch] is observed through the list of calls
      made to it. *)

From stdpp Require Import base option list gmap strings.
From Stdlib Require Import ZArith Lia.

Local Open Scope string_scope.
Local Open Scope Z_scope.
Local Open Scope list_scope.

(** ** Executions *)

Inductive exec (A : Type) : Type :=
  | Returns (a : A)
  | Panics
  | OutOfFuel.
Arguments Returns {A} a.
Arguments Panics {A}.
Arguments OutOfFuel {A}.

Global Instance exec_ret : MRet exec := λ A a, Returns a.
Global Instance exec_bind : MBind exec := λ A B k m,
  match m with
  | Returns a => k a
  | Panics => Panics
  | OutOfFuel => OutOfFuel
  end.

(** [*p] for a pointer [p]: a nil pointer dereference is a run-time panic. *)
Definition deref {A : Type} (p : option A) : exec A :=
  match p with
  | Some a => Returns a
  | None => Panics
  end.

(** ** Data of the SDK and of the provider *)

(** [types.Parameter] of the SSM SDK, with the fields the provider reads.
    [ARN], [Name] and [Value] are [*string] there and [Version] an [int64],
    which is only ever compared. The record is named [types_Parameter]
    after its qualified Go name. *)
Record types_Parameter : Type := mkParameter {
  ARN : option string;
  Name : option string;
  Value : option string;
  Version : Z
}.

Global Instance types_Parameter_eq_dec : EqDecision types_Parameter.
Proof. solve_decision. Defined.

(** [ssm.GetParametersByPathInput]: [Path *string], [WithDecryption *bool],
    [NextToken *string]. Its zero value has all three nil. *)
Record GetParametersByPathInput : Type := mkInput {
  Path : option string;
  WithDecryption : option bool;
  NextToken : option string
}.

Global Instance GetParametersByPathInput_eq_dec :
  EqDecision GetParametersByPathInput.
Proof. solve_decision. Defined.

Definition zero_input : GetParametersByPathInput :=
  {| Path := None; WithDecryption := None; NextToken := None |}.

(** [ssm.GetParametersByPathOutput]; the fields are prefixed because the
    input record already owns the name [NextToken]. *)
Record GetParametersByPathOutput : Type := mkOutput {
  out_Parameters : list types_Parameter;
  out_NextToken : option string
}.

(** Errors: those the provider builds with [errors.New], told apart by their
    text, and those the SSM client returns. *)
Inductive error : Type :=
  | errors_New (text : string)
  | ClientError (text : string).

Global Instance error_eq_dec : EqDecision error.
Proof. solve_decision. Defined.

(** [Config]; [WatchInterval] is a [time.Duration], a number of nanoseconds.
    [Path] and [WithDecryption] carry the prefix [cfg_] because the request
    record above owns the bare names. *)
Record Config : Type := mkConfig {
  Delimiter : string;
  cfg_Path : string;
  cfg_WithDecryption : bool;
  AWSAccessKeyID : string;
  AWSSecretAccessKey : string;
  AWSRoleARN : string;
  AWSRegion : string;
  WatchInterval : Z
}.

(** [ParamStore] without its [client] field: the client is the [World]
    threaded through the operations. [cb] is a Go func value, nil or not. *)
Record ParamStore : Type := mkParamStore {
  config : Config;
  input : GetParametersByPathInput;
  params : list types_Parameter;
  cb : option (string → string)
}.

Definition set_NextToken (t : option string)
    (i : GetParametersByPathInput) : GetParametersByPathInput :=
  {| Path := Path i; WithDecryption := WithDecryption i; NextToken := t |}.

Definition set_input (i : GetParametersByPathInput) (ps : ParamStore) : ParamStore :=
  {| config := config ps; input := i; params := params ps; cb := cb ps |}.

Definition set_params (l : list types_Parameter) (ps : ParamStore) : ParamStore :=
  {| config := config ps; input := input ps; params := l; cb := cb ps |}.

(** [ProviderWithClient]: [&ParamStore{client: client, config: cfg, cb: cb}];
    the fields left out hold their zero values. *)
Definition ProviderWithClient (cfg : Config) (cb : option (string → string)) : ParamStore :=
  {| config := cfg; input := zero_input; params := []; cb := cb |}.

(** ** The change detector: the nested loops of [Watch], lines 172-180 *)

(** The inner loop, for one [newParam], over the saved parameters. The test
    [*p.ARN == *newParam.ARN && newParam.Version != p.Version] dereferences
    [p.ARN] first, then [newParam.ARN]. *)
Fixpoint scan_saved (newParam : types_Parameter) (saved updatedParams : list types_Parameter)
    : exec (list types_Parameter) :=
  match saved with
  | [] => Returns updatedParams
  | p :: saved' =>
      a ← deref (ARN p);
      b ← deref (ARN newParam);
      if bool_decide (a = b) && negb (Version newParam =? Version p)
      then scan_saved newParam saved' (updatedParams ++ [newParam])
      else scan_saved newParam saved' updatedParams
  end.

(** The outer loop over the parameters just fetched. *)
Fixpoint check_updates (fetched saved updatedParams : list types_Parameter)
    : exec (list types_Parameter) :=
  match fetched with
  | [] => Returns updatedParams
  | newParam :: fetched' =>
      updatedParams' ← scan_saved newParam saved updatedParams;
      check_updates fetched' saved updatedParams'
  end.

(** The detector on a previous snapshot [P] (the provider's [ps.params]) and
    a new snapshot [N]; [updatedParams] starts as the nil slice. *)
Definition ChangeDetector (P N : list types_Parameter) : exec (list types_Parameter) :=
  check_updates N P [].

(** A record that carries an identity: its [ARN] pointer is not nil. *)
Definition has_identity (p : types_Parameter) : Prop := is_Some (ARN p).

(** [drift n p]: the saved record [p] has the identity of [n] and another
    version. *)
Definition drift (n p : types_Parameter) : bool :=
  bool_decide (ARN p = ARN n) && negb (Version n =? Version p).

(** How many saved records make [n] count as updated. *)
Definition hits (n : types_Parameter) (P : list types_Parameter) : nat :=
  length (List.filter (drift n) P).

(** ** The provider over an arbitrary client *)

(** What one pagination pass ends with: every record of every page, or the
    error of the page request that failed. *)
Definition pass_result : Type := (list types_Parameter + error)%type.

(** One call the provider makes to the callback given to [Watch]:
    [cb(event, err)], each argument nil or not. *)
Inductive callback_call : Type :=
  | Call (event : option (list types_Parameter)) (err : option error).

Global Instance callback_call_eq_dec : EqDecision callback_call.
Proof. solve_decision. Defined.

(** The flat map [mp] of [Read]: [map[string]interface{}] whose values are
    the [Value] pointers of the records. *)
Abbreviation flat_map_t := (gmap string (option string)).

(** The input [Read] builds at lines 88-91: the configured path and
    decryption flag, and no continuation token. *)
Definition Read_input (cfg : Config) : GetParametersByPathInput :=
  {| Path := Some (cfg_Path cfg);
     WithDecryption := Some (cfg_WithDecryption cfg);
     NextToken := None |}.

(** The key of a record in [Read]: [*param.Name], passed through the
    transformer when there is one. *)
Definition transformed_key (cb : option (string → string)) (name : string) : string :=
  match cb with
  | Some f => f name
  | None => name
  end.

(** The loop of [Read] over the fetched records, lines 117-131: the flat map,
    or the error of the first record whose key is empty. *)
Fixpoint fill_map (cb : option (string → string)) (fetched : list types_Parameter)
    (mp : flat_map_t) : exec (flat_map_t + error) :=
  match fetched with
  | [] => Returns (inl mp)
  | param :: fetched' =>
      name ← deref (Name param);
      let key := transformed_key cb name in
      if bool_decide (key = "")
      then Returns (inr (errors_New "transformed key is empty"))
      else fill_map cb fetched' (<[key := Value param]> mp)
  end.

(** [ReadBytes]. *)
Definition ReadBytes (ps : ParamStore) : option (list Byte.byte) * option error :=
  (None, Some (errors_New "paramstore provider does not support ReadBytes method")).

Section Provider.

Context {World NestedMap : Type}.

(** [ps.client.GetParametersByPath(context.Background(), &ps.input)]: the
    service moves to a new state and answers with a page or an error. *)
Variable GetParametersByPath :
  World → GetParametersByPathInput → World * (GetParametersByPathOutput + error).

(** [maps.Unflatten(mp, delim)]. *)
Variable Unflatten : flat_map_t → string → NestedMap.

(** The pagination loop, written twice in the source with the same body
    (lines 96-111 of [Read], lines 154-170 of [Watch]): request a page with
    the provider's [input], append its records, store its token in
    [input.NextToken], stop at a nil token. [fuel] bounds the number of
    requests. The result carries the service state and the [input] the
    provider is left with. *)
Fixpoint fetch_pages (fuel : nat) (w : World) (i : GetParametersByPathInput)
    (acc : list types_Parameter)
    : exec (World * GetParametersByPathInput * pass_result) :=
  match fuel with
  | O => OutOfFuel
  | S fuel' =>
      match GetParametersByPath w i with
      | (w', inr err) => Returns (w', i, inr err)
      | (w', inl result) =>
          let acc' := acc ++ out_Parameters result in
          let i' := set_NextToken (out_NextToken result) i in
          match out_NextToken result with
          | None => Returns (w', i', inl acc')
          | Some _ => fetch_pages fuel' w' i' acc'
          end
      end
  end.

(** [Read]: the returned pair is [(map, error)]. *)
Definition Read (fuel : nat) (w : World) (ps : ParamStore)
    : exec (World * ParamStore * (option NestedMap * option error)) :=
  if bool_decide (cfg_Path (config ps) = "")
  then Returns (w, ps, (None, Some (errors_New "no parameter path provided")))
  else
    let ps := set_input (Read_input (config ps)) ps in
    '(w, i, r) ← fetch_pages fuel w (input ps) [];
    let ps := set_input i ps in
    match r with
    | inr err => Returns (w, ps, (None, Some err))
    | inl fetched =>
        let ps := set_params fetched ps in
        m ← fill_map (cb ps) fetched ∅;
        match m with
        | inr err => Returns (w, ps, (None, Some err))
        | inl mp =>
            Returns (w, ps, (Some (Unflatten mp (Delimiter (config ps))), None))
        end
    end.

(** One iteration of the loop [main] of [Watch], lines 147-186: the state
    the provider is left in and the calls made to the callback, in order. *)
Definition Watch_tick (fuel : nat) (w : World) (ps : ParamStore)
    : exec (World * ParamStore * list callback_call) :=
  '(w, i, r) ← fetch_pages fuel w (input ps) [];
  let ps := set_input i ps in
  match r with
  | inr err => Returns (w, ps, [Call None (Some err)])
  | inl fetched =>
      updatedParams ← ChangeDetector (params ps) fetched;
      if (0 <? length updatedParams)%nat
      then Returns (w, ps, [Call (Some updatedParams) None])
      else Returns (w, ps, [])
  end.

(** The background loop of [Watch] over its first [ticks] ticks; the calls to
    the callback are grouped by tick. A tick meets the service in the state
    the tick before it left; a store that other writers change between two
    ticks is a client whose state holds what is to come, as [scripted] below
    does. What the callback does with a call, a reload through [Read] for
    one, is the caller's and not part of the loop. *)
Fixpoint Watch_loop (fuel ticks : nat) (w : World) (ps : ParamStore)
    : exec (World * ParamStore * list (list callback_call)) :=
  match ticks with
  | O => Returns (w, ps, [])
  | S ticks' =>
      '(w, ps, calls) ← Watch_tick fuel w ps;
      '(w, ps, later) ← Watch_loop fuel ticks' w ps;
      Returns (w, ps, calls :: later)
  end.

End Provider.

(** [Watch] itself starts the loop in a goroutine and returns nil at once. *)
Definition Watch (ps : ParamStore) : option error := None.

(** ** Clients used to observe and to script the collaborator *)

(** A client that also keeps the list of the requests it received. *)
Definition logged {World : Type}
    (client : World → GetParametersByPathInput → World * (GetParametersByPathOutput + error))
    : World * list GetParametersByPathInput → GetParametersByPathInput →
      (World * list GetParametersByPathInput) * (GetParametersByPathOutput + error) :=
  λ wl i,
    let '(w', r) := client wl.1 i in
    ((w', wl.2 ++ [i]), r).

(** A scripted client: the state is the list of the exchanges still to come,
    each the continuation token the request must carry and the answer. A
    request with another token, or past the end of the script, is refused. *)
Abbreviation script := (list (option string * (GetParametersByPathOutput + error))).

Definition scripted : script → GetParametersByPathInput →
    script * (GetParametersByPathOutput + error) :=
  λ s i,
    match s with
    | [] => ([], inr (ClientError "no more pages"))
    | (token, answer) :: s' =>
        if bool_decide (NextToken i = token)
        then (s', answer)
        else (s, inr (ClientError "unexpected token"))
    end.

Definition page (records : list types_Parameter) (next : option string)
    : GetParametersByPathOutput + error :=
  inl {| out_Parameters := records; out_NextToken := next |}.

(** ** Reference definitions for the statements *)

(** The list the detector builds, as a function: each new record, in order,
    once per saved record it drifts from. *)
Definition updates (P N : list types_Parameter) : list types_Parameter :=
  flat_map (λ n, replicate (hits n P) n) N.

(** The calls a tick makes to the callback once it has a change set. *)
Definition notify (updatedParams : list types_Parameter) : list callback_call :=
  if (0 <? length updatedParams)%nat then [Call (Some updatedParams) None] else [].

(** A record that carries a name: its [Name] pointer is not nil. *)
Definition has_name (p : types_Parameter) : Prop := is_Some (Name p).

(** A record whose key, after the transformer, is the empty string. *)
Definition empty_key (cb : option (string → string)) (p : types_Parameter) : Prop :=
  ∃ name, Name p = Some name ∧ transformed_key cb name = "".

(** The key [Read] gives a record that carries a name. *)
Definition key_of (cb : option (string → string)) (p : types_Parameter) : string :=
  transformed_key cb (default "" (Name p)).

(** A record that carries a name whose key is not empty. *)
Definition keyed (cb : option (string → string)) (p : types_Parameter) : Prop :=
  has_name p ∧ key_of cb p ≠ "".

(** The flat map [Read] fills from records that all have a key: later
    records overwrite earlier ones under the same key. *)
Definition flat_of (cb : option (string → string)) (fetched : list types_Parameter)
    (mp : flat_map_t) : flat_map_t :=
  foldl (λ m p, <[key_of cb p := Value p]> m) mp fetched.

(** Records of one snapshot that share an identity share a version. *)
Definition versions_agree (P : list types_Parameter) : Prop :=
  ∀ p q, p ∈ P → q ∈ P → ARN p = ARN q → Version p = Version q.

(** ** A concrete provider and concrete services *)

Module Scenario.

Definition cfg : Config :=
  {| Delimiter := "/"; cfg_Path := "/app"; cfg_WithDecryption := true;
     AWSAccessKeyID := ""; AWSSecretAccessKey := ""; AWSRoleARN := "";
     AWSRegion := "eu-west-1"; WatchInterval := 600 * 1000000000 |}.

Definition no_path : Config :=
  {| Delimiter := "/"; cfg_Path := ""; cfg_WithDecryption := true;
     AWSAccessKeyID := ""; AWSSecretAccessKey := ""; AWSRoleARN := "";
     AWSRegion := "eu-west-1"; WatchInterval := 600 * 1000000000 |}.

Definition record (arn name value : string) (version : Z) : types_Parameter :=
  {| ARN := Some arn; Name := Some name; Value := Some value; Version := version |}.

Definition A1 := record "arn:A" "/app/a" "1" 1.
Definition A2 := record "arn:A" "/app/a" "2" 2.
Definition B1 := record "arn:B" "/app/b" "x" 1.
Definition C1 := record "arn:C" "/app/c" "y" 1.
Definition D1 := record "arn:D" "/app/d/e" "z" 1.
Definition E1 := record "arn:E" "/app/d/f" "w" 1.

(** A record named by the bare prefix, which [trim] below turns into the
    empty key. *)
Definition R1 := record "arn:R" "/app/" "r" 1.

(** A transformer that removes the five characters of the prefix ["/app/"]. *)
Definition trim (s : string) : string :=
  String.substring 5 (String.length s - 5) s.

(** The provider as [ProviderWithClient] builds it. *)
Definition fresh : ParamStore := ProviderWithClient cfg None.

(** The provider after a [Read] that fetched [A1] and [B1]. *)
Definition seeded : ParamStore :=
  {| config := cfg; input := Read_input cfg; params := [A1; B1]; cb := None |}.

(** Two ticks during which the store holds [A2], [B1] and [C1]: each pass is
    one page. *)
Definition two_quiet_ticks : script :=
  [(None, page [A2; B1; C1] None); (None, page [A2; B1; C1] None)].

(** A pass whose first page arrives with the token ["t1"] and whose second
    page request fails. *)
Definition second_page_fails : script :=
  [(None, page [A1] (Some "t1")); (Some "t1", inr (ClientError "ThrottlingException"))].

(** A pass whose first request fails. *)
Definition first_page_fails : script :=
  [(None, inr (ClientError "ThrottlingException"))].

(** Three pages of two, two and one records. *)
Definition three_pages : script :=
  [(None, page [A1; B1] (Some "t2"));
   (Some "t2", page [C1; D1] (Some "t3"));
   (Some "t3", page [E1] None)].

(** One page holding a record whose trimmed name is empty. *)
Definition page_with_bare_prefix : script :=
  [(None, page [A2; R1; B1] None)].

(** The same page, followed by a pass that sees [A1] again. *)
Definition bare_prefix_then_tick : script :=
  [(None, page [A2; R1; B1] None); (None, page [A1; B1] None)].

(** A snapshot in which one identity shows up with two versions. *)
Definition torn : list types_Parameter := [A1; A2].

End Scenario.

(** ** [Provider]: the client's configuration and the defaults *)

(** The credentials a client is configured with, as far as [Provider]
    chooses them. [LoadedCredentials] stands for what
    [config.LoadDefaultConfig] resolved; [NewAssumeRoleProvider] keeps the
    region and the credentials of the configuration its STS client was built
    from. *)
Inductive CredentialsProvider : Type :=
  | LoadedCredentials
  | NewStaticCredentialsProvider (key secret session : string)
  | NewAssumeRoleProvider (sts_Region : string)
      (sts_Credentials : CredentialsProvider) (roleARN : string)
  | NewCredentialsCache (provider : CredentialsProvider).

(** [aws.Config], with the two fields [Provider] writes. *)
Record aws_Config : Type := mkAwsConfig {
  Region : string;
  Credentials : CredentialsProvider
}.

(** [time.Second], in nanoseconds. *)
Definition Second : Z := 1000000000.

Definition set_Delimiter (d : string) (cfg : Config) : Config :=
  {| Delimiter := d; cfg_Path := cfg_Path cfg;
     cfg_WithDecryption := cfg_WithDecryption cfg;
     AWSAccessKeyID := AWSAccessKeyID cfg;
     AWSSecretAccessKey := AWSSecretAccessKey cfg;
     AWSRoleARN := AWSRoleARN cfg; AWSRegion := AWSRegion cfg;
     WatchInterval := WatchInterval cfg |}.

Definition set_WatchInterval (d : Z) (cfg : Config) : Config :=
  {| Delimiter := Delimiter cfg; cfg_Path := cfg_Path cfg;
     cfg_WithDecryption := cfg_WithDecryption cfg;
     AWSAccessKeyID := AWSAccessKeyID cfg;
     AWSSecretAccessKey := AWSSecretAccessKey cfg;
     AWSRoleARN := AWSRoleARN cfg; AWSRegion := AWSRegion cfg;
     WatchInterval := d |}.

(** [Provider], lines 37-75. [loaded] is what [config.LoadDefaultConfig]
    returned. The result is nil ([None]) or the provider together with the
    configuration its SSM client is built from. *)
Definition Provider (loaded : aws_Config + error) (cfg : Config)
    (cb : option (string → string)) : option (aws_Config * ParamStore) :=
  match loaded with
  | inr _ => None
  | inl c =>
      let cfg :=
        if bool_decide (Delimiter cfg = "") then set_Delimiter "/" cfg else cfg in
      let c :=
        if negb (bool_decide (AWSRegion cfg = ""))
        then {| Region := AWSRegion cfg; Credentials := Credentials c |}
        else c in
      let cfg :=
        if WatchInterval cfg =? 0
        then set_WatchInterval (600 * Second) cfg else cfg in
      let c :=
        if negb (bool_decide (AWSAccessKeyID cfg = ""))
           && negb (bool_decide (AWSSecretAccessKey cfg = ""))
        then {| Region := Region c;
                Credentials :=
                  NewStaticCredentialsProvider
                    (AWSAccessKeyID cfg) (AWSSecretAccessKey cfg) "" |}
        else c in
      let c :=
        if negb (bool_decide (AWSRoleARN cfg = ""))
        then {| Region := Region c;
                Credentials :=
                  NewCredentialsCache
                    (NewAssumeRoleProvider (Region c) (Credentials c)
                       (AWSRoleARN cfg)) |}
        else c in
      Some (c, {| config := cfg; input := zero_input; params := []; cb := cb |})
  end.

(** The goroutine [Watch] starts, lines 141-187: [time.NewTicker] panics on
    an interval that is not positive; otherwise the loop runs, here over its
    first [ticks] ticks. *)
Definition Watch_goroutine {World : Type}
    (client : World → GetParametersByPathInput →
              World * (GetParametersByPathOutput + error))
    (fuel ticks : nat) (w : World) (ps : ParamStore)
    : exec (World * ParamStore * list (list callback_call)) :=
  if WatchInterval (config ps) <=? 0
  then Panics
  else Watch_loop client fuel ticks w ps.

(** ** More reference definitions *)

(** [changed P n]: some saved record drifts from [n]. *)
Definition changed (P : list types_Parameter) (n : types_Parameter) : bool :=
  existsb (drift n) P.

(** Two saved snapshots that agree, record by record, on identity and
    version. *)
Definition same_identities (P P' : list types_Parameter) : Prop :=
  Forall2 (λ p p', ARN p = ARN p' ∧ Version p = Version p') P P'.

(** A record without identity. *)
Definition no_identity (p : types_Parameter) : Prop := ARN p = None.

(** The last record of [fetched] that [Read] files under the key [k]. *)
Definition last_with_key (cb : option (string → string)) (k : string)
    (fetched : list types_Parameter) : option types_Parameter :=
  last (List.filter (λ p, bool_decide (key_of cb p = k)) fetched).

(** A call to the callback that reports a failed fetch: [cb(nil, err)]. *)
Definition is_failure_call (c : callback_call) : Prop :=
  ∃ err, c = Call None (Some err).

(** A call to the callback that carries a change event that is not empty,
    and no error. *)
Definition is_change_call (c : callback_call) : Prop :=
  ∃ U, U ≠ [] ∧ c = Call (Some U) None.


(** A client whose every page announces another one. *)
Definition endless : unit → GetParametersByPathInput →
    unit * (GetParametersByPathOutput + error) :=
  λ _ _, (tt, page [] (Some "more")).

(** A request that follows up on [i]: the path and flag of [i], and a
    token. *)
Definition follows_up (i q : GetParametersByPathInput) : Prop :=
  Path q = Path i ∧ WithDecryption q = WithDecryption i ∧ is_Some (NextToken q).

(** The credentials [Provider] starts from before it looks at the role: the
    static pair when both the key id and the secret are given, else the
    loaded ones. *)
Definition base_credentials (c : aws_Config) (cfg : Config) : CredentialsProvider :=
  if bool_decide (AWSAccessKeyID cfg = "") then Credentials c
  else if bool_decide (AWSSecretAccessKey cfg = "") then Credentials c
  else NewStaticCredentialsProvider (AWSAccessKeyID cfg) (AWSSecretAccessKey cfg) "".

(** The region [Provider] ends with. *)
Definition chosen_region (c : aws_Config) (cfg : Config) : string :=
  if bool_decide (AWSRegion cfg = "") then Region c else AWSRegion cfg.

(** Concrete data for the statements below. *)
Module Cases.

Definition loaded : aws_Config :=
  {| Region := "us-east-1"; Credentials := LoadedCredentials |}.

Definition bare : Config :=
  {| Delimiter := ""; cfg_Path := "/app"; cfg_WithDecryption := false;
     AWSAccessKeyID := ""; AWSSecretAccessKey := ""; AWSRoleARN := "";
     AWSRegion := ""; WatchInterval := 0 |}.

Definition with_role : Config :=
  {| Delimiter := "."; cfg_Path := "/app"; cfg_WithDecryption := false;
     AWSAccessKeyID := "AKIA"; AWSSecretAccessKey := "secret";
     AWSRoleARN := "arn:aws:iam::1:role/reader";
     AWSRegion := "eu-west-1"; WatchInterval := 30 * Second |}.

(** A record whose [Name] pointer is nil. *)
Definition nameless : types_Parameter :=
  {| ARN := Some "arn:N"; Name := None; Value := Some "n"; Version := 1 |}.

(** A record whose [ARN] pointer is nil. *)
Definition anonymous : types_Parameter :=
  {| ARN := None; Name := Some "/app/n"; Value := Some "n"; Version := 1 |}.

(** [A1] under another name and with another value. *)
Definition A1' : types_Parameter :=
  {| ARN := Some "arn:A"; Name := Some "/old/a"; Value := Some "0"; Version := 1 |}.

(** A second record filed under the key of [Scenario.A1]. *)
Definition A3 : types_Parameter :=
  {| ARN := Some "arn:A3"; Name := Some "/app/a"; Value := Some "3"; Version := 7 |}.

(** One page with a keyed record, then the bare prefix, then a record
    without name. *)
Definition bare_prefix_then_nameless : script :=
  [(None, page [Scenario.A2; Scenario.R1; nameless] None)].

(** One page with a record without name between two keyed records. *)
Definition page_with_nameless : script :=
  [(None, page [Scenario.A1; nameless; Scenario.B1] None)].


(** The provider after a [Read] that stored [A1], [B1] and a later pass that
    was cut short after a page with the token ["t1"]. *)
Definition interrupted : ParamStore :=
  {| config := Scenario.cfg;
     input := {| Path := Some "/app"; WithDecryption := Some true;
                 NextToken := Some "t1" |};
     params := [Scenario.A1; Scenario.B1]; cb := None |}.

End Cases.

(** * Properties *)

(** ** The change detector *)

Section DetectorFacts.

Implicit Types (P N U : list types_Parameter) (n p : types_Parameter).

Lemma hits_cons n p P :
  hits n (p :: P) = if drift n p then S (hits n P) else hits n P.
Proof. unfold hits. simpl. by destruct (drift n p). Qed.

Lemma drift_spec n p :
  drift n p = true ↔ ARN p = ARN n ∧ Version p ≠ Version n.
Proof.
  unfold drift.
  rewrite andb_true_iff, bool_decide_eq_true, negb_true_iff, Z.eqb_neq.
  intuition congruence.
Qed.

Lemma hits_pos n P :
  (0 < hits n P)%nat ↔ ∃ p, p ∈ P ∧ drift n p = true.
Proof.
  induction P as [|q P IH].
  - split; [cbn; lia | intros (p & Hp & _); by apply elem_of_nil in Hp].
  - rewrite hits_cons. destruct (drift n q) eqn:Hq.
    + split; [intros _ | lia]. exists q. split; [left | done].
    + rewrite IH. split; intros (p & Hp & Hd).
      * exists p. split; [by right | done].
      * apply elem_of_cons in Hp as [-> | Hp]; [congruence|]. by exists p.
Qed.

(** One step of the inner loop on records that carry their identity. *)
Lemma scan_saved_step n p P U a b :
  ARN p = Some a → ARN n = Some b →
  scan_saved n (p :: P) U = scan_saved n P (if drift n p then U ++ [n] else U).
Proof.
  intros Ha Hb. simpl. rewrite Ha, Hb. simpl. unfold drift. rewrite Ha, Hb.
  assert (bool_decide (a = b) = bool_decide (Some a = Some b)) as ->.
  { apply bool_decide_ext. split; congruence. }
  by destruct (_ && _).
Qed.

Lemma scan_saved_spec n P U :
  has_identity n → Forall has_identity P →
  scan_saved n P U = Returns (U ++ replicate (hits n P) n).
Proof.
  intros [b Hb] HP. revert U.
  induction HP as [|p P [a Ha] _ IH]; intros U.
  - simpl. by rewrite app_nil_r.
  - rewrite (scan_saved_step _ _ _ _ _ _ Ha Hb), IH, hits_cons.
    destruct (drift n p); [|done].
    by rewrite <- app_assoc.
Qed.

Lemma check_updates_spec P N U :
  Forall has_identity P → Forall has_identity N →
  check_updates N P U = Returns (U ++ updates P N).
Proof.
  intros HP HN. revert U.
  induction HN as [|n N Hn _ IH]; intros U; simpl.
  - by rewrite app_nil_r.
  - rewrite scan_saved_spec by done. simpl. rewrite IH.
    by rewrite <- app_assoc.
Qed.

(** With nothing saved the inner loop never runs, whatever the new records
    hold. *)
Lemma check_updates_no_saved N U : check_updates N [] U = Returns U.
Proof. induction N as [|n N IH]; simpl; [done | apply IH]. Qed.

Lemma ChangeDetector_updates P N :
  Forall has_identity P → Forall has_identity N →
  ChangeDetector P N = Returns (updates P N).
Proof. intros HP HN. unfold ChangeDetector. by rewrite check_updates_spec. Qed.

Lemma ChangeDetector_no_baseline N : ChangeDetector [] N = Returns [].
Proof. apply check_updates_no_saved. Qed.

Lemma elem_of_updates P N n :
  n ∈ updates P N ↔
  n ∈ N ∧ ∃ p, p ∈ P ∧ ARN p = ARN n ∧ Version p ≠ Version n.
Proof.
  unfold updates. rewrite list_elem_of_In, in_flat_map. split.
  - intros (x & Hx & Hin). apply list_elem_of_In in Hin.
    apply elem_of_replicate in Hin as [Heq Hne]. subst x.
    split; [by apply list_elem_of_In|].
    destruct (proj1 (hits_pos n P)) as (p & Hp & Hd); [lia|].
    exists p. split; [done|]. by apply drift_spec.
  - intros (Hn & p & Hp & Hd). exists n. split; [by apply list_elem_of_In|].
    apply list_elem_of_In, elem_of_replicate. split; [done|].
    assert (0 < hits n P)%nat; [|lia].
    apply hits_pos. exists p. split; [done|]. by apply drift_spec.
Qed.

Lemma updates_nil_l N : updates [] N = [].
Proof. unfold updates. induction N as [|n N IH]; [done | simpl; apply IH]. Qed.

Lemma updates_same_nil P : updates P P = [] ↔ versions_agree P.
Proof.
  split.
  - intros Hnil p q Hp Hq Harn.
    destruct (decide (Version p = Version q)) as [|Hne]; [done|].
    assert (q ∈ updates P P) as Hin; [|rewrite Hnil in Hin; by apply elem_of_nil in Hin].
    apply elem_of_updates. split; [done|]. by exists p.
  - intros Hagree. destruct (updates P P) as [|n l] eqn:E; [done|].
    assert (n ∈ updates P P) as Hin by (rewrite E; left).
    apply elem_of_updates in Hin as (Hn & p & Hp & Harn & Hne).
    destruct Hne. by apply Hagree.
Qed.

End DetectorFacts.

(** C2. For every previous snapshot [P], the empty one included, and every
    new snapshot [N], of records that carry their identity, the detector
    returns a list that holds exactly the records of [N] whose identity is
    that of a record of [P] with another version; it holds no record whose
    identity is absent from [P], and it is empty when [P] is. *)
Theorem ChangeDetector_exact (P N : list types_Parameter) :
  Forall has_identity P → Forall has_identity N →
  ∃ U, ChangeDetector P N = Returns U ∧
    (∀ n, n ∈ U ↔
          n ∈ N ∧ ∃ p, p ∈ P ∧ ARN p = ARN n ∧ Version p ≠ Version n) ∧
    (∀ n, n ∈ U → ∃ p, p ∈ P ∧ ARN p = ARN n) ∧
    (P = [] → U = []).
Proof.
  intros HP HN. exists (updates P N). split; [by apply ChangeDetector_updates|].
  split; [apply elem_of_updates|]. split.
  - intros n (_ & p & Hp & Harn & _)%elem_of_updates. by exists p.
  - intros ->. apply updates_nil_l.
Qed.

(** The theorem above on the stored snapshot [A1], [B1] and the new one
    [A2], [B1], [C1]. *)
Lemma ChangeDetector_exact_witness :
  ∃ U, ChangeDetector [Scenario.A1; Scenario.B1]
         [Scenario.A2; Scenario.B1; Scenario.C1] = Returns U ∧
    (∀ n, n ∈ U ↔
          n ∈ [Scenario.A2; Scenario.B1; Scenario.C1] ∧
          ∃ p, p ∈ [Scenario.A1; Scenario.B1] ∧
               ARN p = ARN n ∧ Version p ≠ Version n) ∧
    (∀ n, n ∈ U → ∃ p, p ∈ [Scenario.A1; Scenario.B1] ∧ ARN p = ARN n) ∧
    ([Scenario.A1; Scenario.B1] = [] → U = []).
Proof.
  apply ChangeDetector_exact; repeat constructor; eexists; reflexivity.
Defined.

(** Outside the data model, on a list in which one identity shows up with
    two versions, each of the two records drifts from the other when the
    list is compared with itself. *)
Lemma ChangeDetector_torn_snapshot :
  ChangeDetector Scenario.torn Scenario.torn
    = Returns [Scenario.A1; Scenario.A2] ∧
  ChangeDetector Scenario.torn Scenario.torn ≠ Returns [].
Proof. split; [reflexivity | discriminate]. Qed.

(** On records that carry their identity, the detector run with [P] as both
    snapshots returns the empty change set exactly when the records of [P]
    that share an identity share a version. *)
Lemma ChangeDetector_same_snapshot_iff (P : list types_Parameter) :
  Forall has_identity P →
  (ChangeDetector P P = Returns [] ↔ versions_agree P).
Proof.
  intros HP. rewrite ChangeDetector_updates by done.
  rewrite <- updates_same_nil. split; [by intros [= ->] | by intros ->].
Qed.

(** Records with pairwise distinct identities agree on versions. *)
Lemma NoDup_versions_agree (P : list types_Parameter) :
  NoDup (ARN <$> P) → versions_agree P.
Proof.
  induction P as [|x P IH]; intros Hnd p q Hp Hq Harn.
  - by apply elem_of_nil in Hp.
  - simpl in Hnd. apply NoDup_cons in Hnd as [Hnin Hnd].
    apply elem_of_cons in Hp as [-> | Hp]; apply elem_of_cons in Hq as [-> | Hq].
    + done.
    + destruct Hnin. rewrite Harn. by apply list_elem_of_fmap_2.
    + destruct Hnin. rewrite <- Harn. by apply list_elem_of_fmap_2.
    + by apply IH.
Qed.

(** C4. For every snapshot [P] of the data model, one whose records carry
    their identity and in which no two records share one, the detector run
    with [P] as both the previous and the new snapshot returns the empty
    change set. *)
Theorem ChangeDetector_same_snapshot (P : list types_Parameter) :
  Forall has_identity P → NoDup (ARN <$> P) →
  ChangeDetector P P = Returns [].
Proof.
  intros HP Hnd. apply ChangeDetector_same_snapshot_iff; [done|].
  by apply NoDup_versions_agree.
Qed.

(** The theorem above on a snapshot of two identities. *)
Lemma ChangeDetector_same_snapshot_witness :
  ChangeDetector [Scenario.A1; Scenario.B1] [Scenario.A1; Scenario.B1]
    = Returns [].
Proof.
  apply ChangeDetector_same_snapshot.
  - repeat constructor; eexists; reflexivity.
  - apply NoDup_cons. split.
    + by intros [=]%list_elem_of_singleton.
    + apply NoDup_singleton.
Defined.

(** ** The keys of [Read] *)

Section KeyFacts.

Implicit Types (cb : option (string → string)) (mp : flat_map_t).

Lemma fill_map_step cb p l mp name :
  Name p = Some name →
  fill_map cb (p :: l) mp =
    if bool_decide (key_of cb p = "")
    then Returns (inr (errors_New "transformed key is empty"))
    else fill_map cb l (<[key_of cb p := Value p]> mp).
Proof. intros H. unfold key_of. simpl. rewrite H. reflexivity. Qed.

Lemma fill_map_empty_key cb l mp :
  Forall has_name l → Exists (empty_key cb) l →
  fill_map cb l mp = Returns (inr (errors_New "transformed key is empty")).
Proof.
  intros Hnames. revert mp.
  induction Hnames as [|p l [name Hname] _ IH]; intros mp Hex.
  - by apply Exists_nil in Hex.
  - rewrite (fill_map_step _ _ _ _ _ Hname).
    destruct (bool_decide (key_of cb p = "")) eqn:E; [done|].
    apply bool_decide_eq_false in E.
    apply Exists_cons in Hex as [(name' & Hname' & Hkey) | Hex]; [|by apply IH].
    destruct E. unfold key_of. by rewrite Hname'.
Qed.

Lemma fill_map_keyed cb l mp :
  Forall (keyed cb) l → fill_map cb l mp = Returns (inl (flat_of cb l mp)).
Proof.
  intros Hkeyed. revert mp.
  induction Hkeyed as [|p l [[name Hname] Hkey] _ IH]; intros mp; [done|].
  rewrite (fill_map_step _ _ _ _ _ Hname), bool_decide_eq_false_2 by done.
  apply IH.
Qed.

Lemma dom_flat_of cb l mp :
  dom (flat_of cb l mp) = dom mp ∪ list_to_set (key_of cb <$> l).
Proof.
  revert mp. induction l as [|p l IH]; intros mp; simpl.
  - by rewrite (right_id_L ∅ (∪)).
  - unfold flat_of in *. simpl. rewrite IH, dom_insert_L.
    rewrite (comm_L (∪) {[key_of cb p]} (dom mp)).
    by rewrite <- (assoc_L (∪)).
Qed.

End KeyFacts.

(** ** Pagination, [Read] and the ticks of [Watch] over any client *)

Section ProviderFacts.

Context {World NestedMap : Type}.
Variable GetParametersByPath :
  World → GetParametersByPathInput → World * (GetParametersByPathOutput + error).
Variable Unflatten : flat_map_t → string → NestedMap.

Local Abbreviation pass := (fetch_pages GetParametersByPath).
Local Abbreviation read := (Read GetParametersByPath Unflatten).
Local Abbreviation tick := (Watch_tick GetParametersByPath).
Local Abbreviation loop := (Watch_loop GetParametersByPath).

(** A pass that ends keeps its result when given more fuel. *)
Lemma fetch_pages_mono fuel fuel' w i acc out :
  pass fuel w i acc = Returns out → (fuel ≤ fuel')%nat →
  pass fuel' w i acc = Returns out.
Proof.
  revert fuel' w i acc. induction fuel as [|fuel IH]; intros fuel' w i acc H Hle.
  - discriminate.
  - destruct fuel' as [|fuel']; [lia|]. simpl in *.
    destruct (GetParametersByPath w i) as [w' [result | err]]; [|done].
    destruct (out_NextToken result); [|done].
    apply IH; [done | lia].
Qed.

(** The loop itself never panics. *)
Lemma fetch_pages_no_panic fuel w i acc : pass fuel w i acc ≠ Panics.
Proof.
  revert w i acc. induction fuel as [|fuel IH]; intros w i acc; simpl; [done|].
  destruct (GetParametersByPath w i) as [w' [result | err]]; [|done].
  destruct (out_NextToken result); [apply IH | done].
Qed.

(** A pass only ever writes the token of the provider's input, and a pass
    that fetched every page leaves the token nil. *)
Lemma fetch_pages_input fuel w i acc w' i' r :
  pass fuel w i acc = Returns (w', i', r) →
  Path i' = Path i ∧ WithDecryption i' = WithDecryption i ∧
  (∀ N, r = inl N → NextToken i' = None).
Proof.
  revert w i acc. induction fuel as [|fuel IH]; intros w i acc H; simpl in H.
  - discriminate.
  - destruct (GetParametersByPath w i) as [w1 [result | err]].
    + destruct (out_NextToken result) as [t|] eqn:Ht.
      * apply IH in H as (HP & HD & HT). by repeat split.
      * injection H as <- <- <-. by repeat split.
    + injection H as <- <- <-. by repeat split.
Qed.

(** A pass whose first request fails leaves the input as it was. *)
Lemma fetch_pages_first_fails fuel w i acc w' i' r err :
  (GetParametersByPath w i).2 = inr err →
  pass fuel w i acc = Returns (w', i', r) →
  w' = (GetParametersByPath w i).1 ∧ i' = i ∧ r = inr err.
Proof.
  intros Hfail H. destruct fuel as [|fuel]; [discriminate|]. simpl in H.
  destruct (GetParametersByPath w i) as [w1 [result | err1]]; simpl in *.
  - discriminate.
  - by simplify_eq.
Qed.

Lemma Watch_tick_failed fuel w ps w' i err :
  pass fuel w (input ps) [] = Returns (w', i, inr err) →
  tick fuel w ps = Returns (w', set_input i ps, [Call None (Some err)]).
Proof. intros H. unfold Watch_tick. by rewrite H. Qed.

Lemma Watch_tick_fetched fuel w ps w' i N :
  pass fuel w (input ps) [] = Returns (w', i, inl N) →
  tick fuel w ps =
    (U ← ChangeDetector (params ps) N; Returns (w', set_input i ps, notify U)).
Proof.
  intros H. unfold Watch_tick. rewrite H. simpl.
  destruct (ChangeDetector (params ps) N) as [U| |]; simpl; try done.
  unfold notify. by destruct (0 <? length U)%nat.
Qed.

(** No tick writes the saved snapshot, the configuration or the
    transformer. *)
Lemma Watch_tick_frame fuel w ps w' ps' calls :
  tick fuel w ps = Returns (w', ps', calls) →
  params ps' = params ps ∧ config ps' = config ps ∧ cb ps' = cb ps.
Proof.
  unfold Watch_tick.
  destruct (pass fuel w (input ps) []) as [[[w1 i] [N | err]]| |];
    simpl; try discriminate.
  - destruct (ChangeDetector (params ps) N) as [U| |]; simpl; try discriminate.
    destruct (0 <? length U)%nat; intros [= <- <- <-]; done.
  - intros [= <- <- <-]; done.
Qed.

Lemma Watch_loop_frame fuel ticks w ps w' ps' groups :
  loop fuel ticks w ps = Returns (w', ps', groups) →
  params ps' = params ps ∧ config ps' = config ps ∧ cb ps' = cb ps.
Proof.
  revert w ps groups. induction ticks as [|ticks IH]; intros w ps groups; simpl.
  - by intros [= <- <- <-].
  - destruct (tick fuel w ps) as [[[w1 ps1] calls]| |] eqn:Htick;
      simpl; try discriminate.
    destruct (loop fuel ticks w1 ps1) as [[[w2 ps2] later]| |] eqn:Hloop;
      simpl; try discriminate.
    intros [= <- <- <-].
    apply Watch_tick_frame in Htick as (Hp & Hc & Hcb).
    apply IH in Hloop as (Hp' & Hc' & Hcb').
    repeat split; congruence.
Qed.

Lemma Read_no_path fuel w ps :
  cfg_Path (config ps) = "" →
  read fuel w ps
    = Returns (w, ps, (None, Some (errors_New "no parameter path provided"))).
Proof. intros H. unfold Read. by rewrite bool_decide_eq_true_2. Qed.

Lemma Read_failed fuel w ps w' i err :
  cfg_Path (config ps) ≠ "" →
  pass fuel w (Read_input (config ps)) [] = Returns (w', i, inr err) →
  read fuel w ps = Returns (w', set_input i ps, (None, Some err)).
Proof.
  intros Hpath H. unfold Read. rewrite bool_decide_eq_false_2 by done.
  simpl. by rewrite H.
Qed.

Lemma Read_fetched fuel w ps w' i fetched :
  cfg_Path (config ps) ≠ "" →
  pass fuel w (Read_input (config ps)) [] = Returns (w', i, inl fetched) →
  read fuel w ps =
    (m ← fill_map (cb ps) fetched ∅;
     Returns (w', set_params fetched (set_input i ps),
              match m with
              | inr err => (None, Some err)
              | inl mp => (Some (Unflatten mp (Delimiter (config ps))), None)
              end)).
Proof.
  intros Hpath H. unfold Read. rewrite bool_decide_eq_false_2 by done.
  simpl. rewrite H. simpl.
  destruct (fill_map (cb ps) fetched ∅) as [[mp | err]| |]; done.
Qed.

(** [Read] overwrites the provider's input before its first request. *)
Lemma Read_set_input fuel w ps i :
  cfg_Path (config ps) ≠ "" →
  read fuel w (set_input i ps) = read fuel w ps.
Proof.
  intros Hpath. unfold Read. simpl.
  rewrite bool_decide_eq_false_2 by done. reflexivity.
Qed.

(** C1, amended. A poll tick of [Watch] whose paginated fetch succeeds leaves
    the stored snapshot as it was: only [Read] writes it. So on every tick,
    however many ticks ran before it and whatever state [w] the service is
    in by then, the detector compares the new snapshot with the snapshot the
    provider held when the loop started, the one the latest [Read] fetched
    (empty without one), and the callback is called with that comparison's
    change set when it is not empty. *)
Theorem Watch_tick_diffs_against_saved
    fuel0 ticks w0 ps0 w1 ps groups fuel w w' i N :
  loop fuel0 ticks w0 ps0 = Returns (w1, ps, groups) →
  pass fuel w (input ps) [] = Returns (w', i, inl N) →
  Forall has_identity (params ps0) → Forall has_identity N →
  ∃ U, ChangeDetector (params ps0) N = Returns U ∧
       tick fuel w ps = Returns (w', set_input i ps, notify U) ∧
       params (set_input i ps) = params ps0.
Proof.
  intros Hloop Hpass HP HN.
  apply Watch_loop_frame in Hloop as (Hsaved & _ & _).
  exists (updates (params ps0) N).
  split; [by apply ChangeDetector_updates|].
  split; [|done].
  rewrite (Watch_tick_fetched _ _ _ _ _ _ Hpass), Hsaved.
  by rewrite ChangeDetector_updates.
Qed.

(** C3, amended. A poll tick in which a page request fails calls the
    callback exactly once, with [(nil, err)], and leaves the stored snapshot
    as it was; the detector is not run, as the tick ends the same way
    whatever snapshot is stored. The pagination input keeps its path and
    decryption flag, and keeps its token too when the request that fails is
    the first of the tick. *)
Theorem Watch_tick_fetch_failure fuel w ps w' i err :
  pass fuel w (input ps) [] = Returns (w', i, inr err) →
  tick fuel w ps = Returns (w', set_input i ps, [Call None (Some err)]) ∧
  params (set_input i ps) = params ps ∧
  (∀ saved, tick fuel w (set_params saved ps)
            = Returns (w', set_input i (set_params saved ps),
                       [Call None (Some err)])) ∧
  Path i = Path (input ps) ∧
  WithDecryption i = WithDecryption (input ps) ∧
  (∀ err', (GetParametersByPath w (input ps)).2 = inr err' → i = input ps).
Proof.
  intros Hpass. split; [by apply Watch_tick_failed|]. split; [done|].
  split; [intros saved; by apply Watch_tick_failed|].
  destruct (fetch_pages_input _ _ _ _ _ _ _ Hpass) as (HP & HD & _).
  repeat split; [done..|].
  intros err' Hfirst.
  by destruct (fetch_pages_first_fails _ _ _ _ _ _ _ _ Hfirst Hpass) as (_ & -> & _).
Qed.

(** C8. In every poll tick the callback is called at most once. A call that
    carries a change event carries no error, and its event is the change set
    the detector computed from the stored snapshot and the snapshot just
    fetched, which is not empty; no call is [(nil, nil)]. *)
Theorem Watch_tick_never_empty_event fuel w ps w' ps' calls :
  tick fuel w ps = Returns (w', ps', calls) →
  (length calls ≤ 1)%nat ∧
  (∀ U err, Call (Some U) err ∈ calls →
     err = None ∧ U ≠ [] ∧
     ∃ w1 i N, pass fuel w (input ps) [] = Returns (w1, i, inl N) ∧
               ChangeDetector (params ps) N = Returns U) ∧
  Call None None ∉ calls.
Proof.
  unfold Watch_tick.
  destruct (pass fuel w (input ps) []) as [[[w1 i] [N | err]]| |];
    simpl; try discriminate.
  - destruct (ChangeDetector (params ps) N) as [U| |] eqn:HU;
      simpl; try discriminate.
    destruct (0 <? length U)%nat eqn:Hlen; intros [= <- <- <-].
    + split; [simpl; lia|]. split.
      * intros U' err' [= -> ->]%list_elem_of_singleton.
        split; [done|]. split; [by destruct U|]. by exists w1, i, N.
      * by intros [=]%list_elem_of_singleton.
    + split; [simpl; lia|]. split.
      * by intros U' err' ?%elem_of_nil.
      * by intros ?%elem_of_nil.
  - intros [= <- <- <-]. split; [simpl; lia|]. split.
    + by intros U' err' [=]%list_elem_of_singleton.
    + by intros [=]%list_elem_of_singleton.
Qed.

(** C7. When the key of some fetched record is the empty string after the
    transformer, [Read] returns a nil map and the error
    [transformed key is empty]: whatever the earlier records put in the flat
    map is dropped. *)
Theorem Read_empty_key_aborts fuel w ps w1 i fetched :
  cfg_Path (config ps) ≠ "" →
  pass fuel w (Read_input (config ps)) [] = Returns (w1, i, inl fetched) →
  Forall has_name fetched →
  Exists (empty_key (cb ps)) fetched →
  ∃ ps1,
    read fuel w ps
      = Returns (w1, ps1, (None, Some (errors_New "transformed key is empty"))).
Proof.
  intros Hpath Hpass Hnames Hempty.
  exists (set_params fetched (set_input i ps)).
  rewrite (Read_fetched _ _ _ _ _ _ Hpath Hpass).
  by rewrite fill_map_empty_key.
Qed.

(** C9. When [Read] fails on an empty transformed key, the provider already
    stores the records that [Read] fetched: the error is returned after the
    snapshot was replaced. A tick of [Watch] that follows, in whatever state
    the service is by then, compares its new snapshot with those records,
    whatever was stored before the [Read]. *)
Theorem Read_empty_key_commits_snapshot fuel w ps w1 i fetched :
  cfg_Path (config ps) ≠ "" →
  pass fuel w (Read_input (config ps)) [] = Returns (w1, i, inl fetched) →
  Forall has_name fetched →
  Exists (empty_key (cb ps)) fetched →
  ∃ ps1,
    read fuel w ps
      = Returns (w1, ps1, (None, Some (errors_New "transformed key is empty"))) ∧
    params ps1 = fetched ∧
    ∀ fuel' w' w2 i2 N U,
      pass fuel' w' (input ps1) [] = Returns (w2, i2, inl N) →
      ChangeDetector fetched N = Returns U →
      tick fuel' w' ps1 = Returns (w2, set_input i2 ps1, notify U).
Proof.
  intros Hpath Hpass Hnames Hempty.
  exists (set_params fetched (set_input i ps)).
  split; [|split; [done|]].
  - rewrite (Read_fetched _ _ _ _ _ _ Hpath Hpass).
    by rewrite fill_map_empty_key.
  - intros fuel' w' w2 i2 N U Hnext HU.
    rewrite (Watch_tick_fetched _ _ _ _ _ _ Hnext). simpl. by rewrite HU.
Qed.

End ProviderFacts.

(** The theorem above on a provider that stores [A1], [B1], after one tick
    that fetched [A2], [B1], [C1]. *)
Lemma Watch_tick_diffs_against_saved_witness :
  ∃ U, ChangeDetector (params Scenario.seeded)
         [Scenario.A2; Scenario.B1; Scenario.C1] = Returns U ∧
       Watch_tick scripted 1
         [(None, page [Scenario.A2; Scenario.B1; Scenario.C1] None)]
         Scenario.seeded
         = Returns ([], set_input (input Scenario.seeded) Scenario.seeded,
                    notify U) ∧
       params (set_input (input Scenario.seeded) Scenario.seeded)
         = params Scenario.seeded.
Proof.
  apply (Watch_tick_diffs_against_saved scripted 1%nat 1%nat
           Scenario.two_quiet_ticks Scenario.seeded
           [(None, page [Scenario.A2; Scenario.B1; Scenario.C1] None)]
           Scenario.seeded
           [[Call (Some [Scenario.A2]) None]]).
  - reflexivity.
  - reflexivity.
  - repeat constructor; eexists; reflexivity.
  - repeat constructor; eexists; reflexivity.
Defined.

(** C1, as stated, fails: the tick below fetches [A2], [B1], [C1] and leaves
    [A1], [B1] stored, so the next tick, which fetches the same three
    records, reports [A2] a second time, where a comparison with the
    snapshot of the tick before it finds no change. *)
Lemma Watch_tick_keeps_saved_snapshot :
  ∃ w1 ps1 w2 ps2,
    fetch_pages scripted 1 Scenario.two_quiet_ticks (input Scenario.seeded) []
      = Returns (w1, input Scenario.seeded,
                 inl [Scenario.A2; Scenario.B1; Scenario.C1]) ∧
    Watch_tick scripted 1 Scenario.two_quiet_ticks Scenario.seeded
      = Returns (w1, ps1, [Call (Some [Scenario.A2]) None]) ∧
    params ps1 = [Scenario.A1; Scenario.B1] ∧
    params ps1 ≠ [Scenario.A2; Scenario.B1; Scenario.C1] ∧
    fetch_pages scripted 1 w1 (input ps1) []
      = Returns (w2, input ps1, inl [Scenario.A2; Scenario.B1; Scenario.C1]) ∧
    Watch_tick scripted 1 w1 ps1
      = Returns (w2, ps2, [Call (Some [Scenario.A2]) None]) ∧
    ChangeDetector [Scenario.A2; Scenario.B1; Scenario.C1]
      [Scenario.A2; Scenario.B1; Scenario.C1] = Returns [].
Proof.
  do 4 eexists. repeat split; try reflexivity. discriminate.
Qed.

(** The theorem above on a tick whose first request is refused. *)
Lemma Watch_tick_fetch_failure_witness :
  Watch_tick scripted 1 Scenario.first_page_fails Scenario.seeded
    = Returns ([], set_input (input Scenario.seeded) Scenario.seeded,
               [Call None (Some (ClientError "ThrottlingException"))]) ∧
  params (set_input (input Scenario.seeded) Scenario.seeded)
    = params Scenario.seeded ∧
  (∀ saved,
     Watch_tick scripted 1 Scenario.first_page_fails
       (set_params saved Scenario.seeded)
     = Returns ([], set_input (input Scenario.seeded)
                      (set_params saved Scenario.seeded),
                [Call None (Some (ClientError "ThrottlingException"))])) ∧
  Path (input Scenario.seeded) = Path (input Scenario.seeded) ∧
  WithDecryption (input Scenario.seeded)
    = WithDecryption (input Scenario.seeded) ∧
  (∀ err', (scripted Scenario.first_page_fails (input Scenario.seeded)).2
           = inr err' →
           input Scenario.seeded = input Scenario.seeded).
Proof.
  apply (Watch_tick_fetch_failure scripted 1%nat Scenario.first_page_fails
           Scenario.seeded).
  reflexivity.
Defined.

(** C3, as stated, fails: in the tick below the first page arrives with the
    token ["t1"] and the second request fails; the callback is called once
    with the error, and the pagination input, whose token was nil, is left
    holding ["t1"]. *)
Lemma Watch_tick_failure_moves_cursor :
  ∃ ps1,
    Watch_tick scripted 2 Scenario.second_page_fails Scenario.seeded
      = Returns ([], ps1,
                 [Call None (Some (ClientError "ThrottlingException"))]) ∧
    params ps1 = params Scenario.seeded ∧
    NextToken (input Scenario.seeded) = None ∧
    NextToken (input ps1) = Some "t1" ∧
    input ps1 ≠ input Scenario.seeded.
Proof.
  eexists. repeat split; try reflexivity. discriminate.
Qed.

(** The theorem above on a tick that reports [A2]. *)
Lemma Watch_tick_never_empty_event_witness :
  (length [Call (Some [Scenario.A2]) None] ≤ 1)%nat ∧
  (∀ U err, Call (Some U) err ∈ [Call (Some [Scenario.A2]) None] →
     err = None ∧ U ≠ [] ∧
     ∃ w1 i N,
       fetch_pages scripted 1 Scenario.two_quiet_ticks
         (input Scenario.seeded) [] = Returns (w1, i, inl N) ∧
       ChangeDetector (params Scenario.seeded) N = Returns U) ∧
  Call None None ∉ [Call (Some [Scenario.A2]) None].
Proof.
  apply (Watch_tick_never_empty_event scripted 1%nat
           Scenario.two_quiet_ticks Scenario.seeded
           [(None, page [Scenario.A2; Scenario.B1; Scenario.C1] None)]
           Scenario.seeded).
  reflexivity.
Defined.

(** ** Counting the requests *)

Section LoggedFacts.

Context {World NestedMap : Type}.
Variable GetParametersByPath :
  World → GetParametersByPathInput → World * (GetParametersByPathOutput + error).
Variable Unflatten : flat_map_t → string → NestedMap.

(** A pass that ends has sent at least one request, and the first one
    carries the input the pass started with. *)
Lemma fetch_pages_logged_first fuel w log i acc w' log' i' r :
  fetch_pages (logged GetParametersByPath) fuel (w, log) i acc
    = Returns ((w', log'), i', r) →
  ∃ rest, log' = log ++ i :: rest.
Proof.
  revert w log i acc. induction fuel as [|fuel IH]; intros w log i acc H.
  - discriminate.
  - simpl in H. unfold logged in H at 1. simpl in H.
    destruct (GetParametersByPath w i) as [w1 [result | err]].
    + destruct (out_NextToken result) as [t|].
      * apply IH in H as [rest ->]. exists (set_NextToken (Some t) i :: rest).
        by rewrite <- app_assoc.
      * injection H as <- <- <- <-. by exists [].
    + injection H as <- <- <- <-. by exists [].
Qed.

(** C6. For every configuration whose path is empty, [Read] returns a nil map
    and the error [no parameter path provided], and the list of the requests
    the client received is the one it had before: [Read] sent none, with any
    amount of fuel. *)
Theorem Read_no_path_no_request fuel w log ps :
  cfg_Path (config ps) = "" →
  Read (logged GetParametersByPath) Unflatten fuel (w, log) ps
    = Returns ((w, log), ps,
               (None, Some (errors_New "no parameter path provided"))).
Proof. apply Read_no_path. Qed.

(** C10. With a path configured, [Read] does the same whatever input the
    provider held before, a token left by an aborted pass included. The
    first request of a [Read] that returns is the record made of the
    configured path, the configured decryption flag and a nil token. And
    when the service refuses that very request, [Read], given fuel for one
    request, returns the refusal at once and leaves that record as the
    provider's input. *)
Theorem Read_starts_from_first_page fuel w ps :
  cfg_Path (config ps) ≠ "" →
  (∀ i, Read GetParametersByPath Unflatten fuel w (set_input i ps)
        = Read GetParametersByPath Unflatten fuel w ps) ∧
  (∀ log w' log' ps' r,
     Read (logged GetParametersByPath) Unflatten fuel (w, log) ps
       = Returns ((w', log'), ps', r) →
     ∃ rest,
       log' = log ++ {| Path := Some (cfg_Path (config ps));
                        WithDecryption := Some (cfg_WithDecryption (config ps));
                        NextToken := None |} :: rest) ∧
  (∀ w1 err,
     GetParametersByPath w
       {| Path := Some (cfg_Path (config ps));
          WithDecryption := Some (cfg_WithDecryption (config ps));
          NextToken := None |} = (w1, inr err) →
     Read GetParametersByPath Unflatten (S fuel) w ps
       = Returns (w1,
                  {| config := config ps;
                     input := {| Path := Some (cfg_Path (config ps));
                                 WithDecryption :=
                                   Some (cfg_WithDecryption (config ps));
                                 NextToken := None |};
                     params := params ps; cb := cb ps |},
                  (None, Some err))).
Proof.
  intros Hpath. split; [intros i; by apply Read_set_input|]. split.
  - intros log w' log' ps' r. unfold Read.
    rewrite bool_decide_eq_false_2 by done. simpl.
    destruct (fetch_pages _ fuel (w, log) (Read_input (config ps)) [])
      as [[[[w1 log1] i1] [fetched | err]]| |] eqn:Hpass; simpl;
      try discriminate.
    + apply fetch_pages_logged_first in Hpass as [rest ->].
      destruct (fill_map (cb ps) fetched ∅) as [[mp | err]| |]; simpl;
        try discriminate; intros [= <- <- <- <-]; by exists rest.
    + apply fetch_pages_logged_first in Hpass as [rest ->].
      intros [= <- <- <- <-]. by exists rest.
  - intros w1 err Hrefused. unfold Read.
    rewrite bool_decide_eq_false_2 by done. simpl.
    unfold Read_input. by rewrite Hrefused.
Qed.

(** The key of a record that carries a name: the transformer applied to
    the name, or the name itself when there is no transformer. *)
Lemma key_of_named (cb : option (string → string)) p n :
  Name p = Some n → key_of cb p = default id cb n.
Proof. intros H. unfold key_of. rewrite H. by destruct cb. Qed.

(** C5. Against a client that serves three pages of two, two and one records,
    the first to a request without token and each next one to the token the
    page before it returned, [Read], given fuel for three requests, sends
    exactly three requests, each with the configured path and decryption
    flag: the first without token, the second with the first page's token,
    the third with the second page's. It stores the five records in order
    and returns the unflattened flat map that files each record's value
    under its transformed key, [key] applied to its name, where [key] is the
    transformer (the identity without one); the keys of that map are the
    five transformed keys. *)
Theorem Read_three_pages fuel ps (t2 t3 : string) r1 r2 r3 r4 r5
    n1 n2 n3 n4 n5 (key : string → string) :
  cfg_Path (config ps) ≠ "" →
  key = default id (cb ps) →
  Name <$> [r1; r2; r3; r4; r5] = Some <$> [n1; n2; n3; n4; n5] →
  Forall (λ n, key n ≠ "") [n1; n2; n3; n4; n5] →
  (3 ≤ fuel)%nat →
  ∃ mp : flat_map_t,
    mp = <[key n5 := Value r5]> (<[key n4 := Value r4]>
           (<[key n3 := Value r3]> (<[key n2 := Value r2]>
              (<[key n1 := Value r1]> ∅)))) ∧
    dom mp = {[ key n1; key n2; key n3; key n4; key n5 ]} ∧
    Read (logged scripted) Unflatten fuel
      ([(None, page [r1; r2] (Some t2));
        (Some t2, page [r3; r4] (Some t3));
        (Some t3, page [r5] None)], []) ps
    = Returns (([], [ {| Path := Some (cfg_Path (config ps));
                         WithDecryption := Some (cfg_WithDecryption (config ps));
                         NextToken := None |};
                      {| Path := Some (cfg_Path (config ps));
                         WithDecryption := Some (cfg_WithDecryption (config ps));
                         NextToken := Some t2 |};
                      {| Path := Some (cfg_Path (config ps));
                         WithDecryption := Some (cfg_WithDecryption (config ps));
                         NextToken := Some t3 |} ]),
               {| config := config ps;
                  input := {| Path := Some (cfg_Path (config ps));
                              WithDecryption :=
                                Some (cfg_WithDecryption (config ps));
                              NextToken := None |};
                  params := [r1; r2; r3; r4; r5];
                  cb := cb ps |},
               (Some (Unflatten mp (Delimiter (config ps))), None)).
Proof.
  intros Hpath -> [= H1 H2 H3 H4 H5] Hkeys Hfuel.
  apply Forall_cons in Hkeys as [K1 Hkeys].
  apply Forall_cons in Hkeys as [K2 Hkeys].
  apply Forall_cons in Hkeys as [K3 Hkeys].
  apply Forall_cons in Hkeys as [K4 Hkeys].
  apply Forall_cons in Hkeys as [K5 _].
  assert (∀ r n, Name r = Some n → default id (cb ps) n ≠ "" →
                 keyed (cb ps) r) as Hk.
  { intros r n Hr Hn. split; [by exists n | by rewrite (key_of_named _ _ _ Hr)]. }
  assert (Forall (keyed (cb ps)) [r1; r2; r3; r4; r5]) as Hkeyed.
  { apply Forall_cons; split; [exact (Hk _ _ H1 K1)|].
    apply Forall_cons; split; [exact (Hk _ _ H2 K2)|].
    apply Forall_cons; split; [exact (Hk _ _ H3 K3)|].
    apply Forall_cons; split; [exact (Hk _ _ H4 K4)|].
    apply Forall_cons; split; [exact (Hk _ _ H5 K5) | constructor]. }
  eexists. split; [reflexivity|]. split.
  - rewrite !dom_insert_L, dom_empty_L. apply set_eq. intros x.
    rewrite !elem_of_union, !elem_of_singleton, elem_of_empty. tauto.
  - erewrite Read_fetched; [|done|].
    + rewrite fill_map_keyed by done. unfold flat_of. simpl.
      rewrite (key_of_named _ _ _ H1), (key_of_named _ _ _ H2),
        (key_of_named _ _ _ H3), (key_of_named _ _ _ H4),
        (key_of_named _ _ _ H5).
      reflexivity.
    + eapply fetch_pages_mono; [|exact Hfuel].
      simpl. unfold logged at 1. simpl.
      rewrite (bool_decide_eq_true_2 (Some t2 = Some t2)) by done.
      unfold logged at 1. simpl.
      rewrite (bool_decide_eq_true_2 (Some t3 = Some t3)) by done.
      reflexivity.
Qed.

End LoggedFacts.

(** The theorem above on a page that holds the record named ["/app/"], read
    with the transformer that removes that prefix. *)
Lemma Read_empty_key_aborts_witness :
  ∃ ps1,
    Read scripted (λ (mp : flat_map_t) (delim : string), mp) 1
      Scenario.page_with_bare_prefix
      (ProviderWithClient Scenario.cfg (Some Scenario.trim))
    = Returns ([], ps1, (None, Some (errors_New "transformed key is empty"))).
Proof.
  apply (Read_empty_key_aborts scripted (λ mp _, mp) 1%nat
           Scenario.page_with_bare_prefix
           (ProviderWithClient Scenario.cfg (Some Scenario.trim))
           [] (Read_input Scenario.cfg)
           [Scenario.A2; Scenario.R1; Scenario.B1]).
  - discriminate.
  - reflexivity.
  - repeat constructor; eexists; reflexivity.
  - apply Exists_cons_tl, Exists_cons_hd. exists "/app/". split; reflexivity.
Defined.

(** The theorem above on the same page. *)
Lemma Read_empty_key_commits_snapshot_witness :
  ∃ ps1,
    Read scripted (λ (mp : flat_map_t) (delim : string), mp) 1
      Scenario.bare_prefix_then_tick
      (ProviderWithClient Scenario.cfg (Some Scenario.trim))
    = Returns ([(None, page [Scenario.A1; Scenario.B1] None)], ps1,
               (None, Some (errors_New "transformed key is empty"))) ∧
    params ps1 = [Scenario.A2; Scenario.R1; Scenario.B1] ∧
    ∀ fuel' w' w2 i2 N U,
      fetch_pages scripted fuel' w' (input ps1) [] = Returns (w2, i2, inl N) →
      ChangeDetector [Scenario.A2; Scenario.R1; Scenario.B1] N = Returns U →
      Watch_tick scripted fuel' w' ps1
        = Returns (w2, set_input i2 ps1, notify U).
Proof.
  apply (Read_empty_key_commits_snapshot scripted (λ mp _, mp) 1%nat
           Scenario.bare_prefix_then_tick
           (ProviderWithClient Scenario.cfg (Some Scenario.trim))
           [(None, page [Scenario.A1; Scenario.B1] None)]
           (Read_input Scenario.cfg)
           [Scenario.A2; Scenario.R1; Scenario.B1]).
  - discriminate.
  - reflexivity.
  - repeat constructor; eexists; reflexivity.
  - apply Exists_cons_tl, Exists_cons_hd. exists "/app/". split; reflexivity.
Defined.

(** The theorem above on a provider configured without a path, with no fuel
    at all. *)
Lemma Read_no_path_no_request_witness :
  Read (logged scripted) (λ (mp : flat_map_t) (delim : string), mp) 0
    (Scenario.three_pages, []) (ProviderWithClient Scenario.no_path None)
  = Returns ((Scenario.three_pages, []),
             ProviderWithClient Scenario.no_path None,
             (None, Some (errors_New "no parameter path provided"))).
Proof.
  apply (Read_no_path_no_request scripted (λ mp _, mp) 0%nat
           Scenario.three_pages []
           (ProviderWithClient Scenario.no_path None)).
  reflexivity.
Defined.

(** The theorem above on a provider whose input was left with the token
    ["t1"] by a pass that was cut short. *)
Lemma Read_starts_from_first_page_witness :
  (∀ i, Read scripted (λ (mp : flat_map_t) (delim : string), mp) 3
          Scenario.three_pages (set_input i Cases.interrupted)
        = Read scripted (λ mp _, mp) 3 Scenario.three_pages
            Cases.interrupted) ∧
  (∀ log w' log' ps' r,
     Read (logged scripted) (λ (mp : flat_map_t) (delim : string), mp) 3
       (Scenario.three_pages, log) Cases.interrupted
       = Returns ((w', log'), ps', r) →
     ∃ rest,
       log' = log ++ {| Path := Some "/app"; WithDecryption := Some true;
                        NextToken := None |} :: rest) ∧
  (∀ w1 err,
     scripted Scenario.three_pages
       {| Path := Some "/app"; WithDecryption := Some true;
          NextToken := None |} = (w1, inr err) →
     Read scripted (λ (mp : flat_map_t) (delim : string), mp) 4
       Scenario.three_pages Cases.interrupted
       = Returns (w1,
                  {| config := Scenario.cfg;
                     input := {| Path := Some "/app";
                                 WithDecryption := Some true;
                                 NextToken := None |};
                     params := [Scenario.A1; Scenario.B1]; cb := None |},
                  (None, Some err))).
Proof.
  apply (Read_starts_from_first_page scripted (λ mp _, mp) 3%nat
           Scenario.three_pages Cases.interrupted).
  discriminate.
Defined.

(** The theorem above on the five records of the scenario, read with the
    transformer that removes the prefix ["/app/"]. *)
Lemma Read_three_pages_witness :
  ∃ mp : flat_map_t,
    mp = <["d/f" := Some "w"]> (<["d/e" := Some "z"]>
           (<["c" := Some "y"]> (<["b" := Some "x"]>
              (<["a" := Some "1"]> ∅)))) ∧
    dom mp = {[ "a"; "b"; "c"; "d/e"; "d/f" ]} ∧
    Read (logged scripted) (λ (mp : flat_map_t) (delim : string), mp) 3
      (Scenario.three_pages, [])
      (ProviderWithClient Scenario.cfg (Some Scenario.trim))
    = Returns (([], [ {| Path := Some "/app"; WithDecryption := Some true;
                         NextToken := None |};
                      {| Path := Some "/app"; WithDecryption := Some true;
                         NextToken := Some "t2" |};
                      {| Path := Some "/app"; WithDecryption := Some true;
                         NextToken := Some "t3" |} ]),
               {| config := Scenario.cfg;
                  input := {| Path := Some "/app"; WithDecryption := Some true;
                              NextToken := None |};
                  params := [Scenario.A1; Scenario.B1; Scenario.C1;
                             Scenario.D1; Scenario.E1];
                  cb := Some Scenario.trim |},
               (Some mp, None)).
Proof.
  apply (Read_three_pages (λ mp _, mp) 3%nat
           (ProviderWithClient Scenario.cfg (Some Scenario.trim)) "t2" "t3"
           Scenario.A1 Scenario.B1 Scenario.C1 Scenario.D1 Scenario.E1
           "/app/a" "/app/b" "/app/c" "/app/d/e" "/app/d/f" Scenario.trim).
  - discriminate.
  - reflexivity.
  - reflexivity.
  - repeat constructor; discriminate.
  - lia.
Defined.

(** * Further properties *)

(** ** The change detector on any records *)

Section DetectorMore.

Implicit Types (P N U : list types_Parameter) (n p : types_Parameter).

Lemma scan_saved_panics n P U :
  (P ≠ [] ∧ no_identity n) ∨ Exists no_identity P →
  scan_saved n P U = Panics.
Proof.
  revert U. induction P as [|p P IH]; intros U H.
  - destruct H as [[H _] | H]; [done | by apply Exists_nil in H].
  - simpl. destruct (ARN p) as [a|] eqn:Ha; [|done]. simpl.
    destruct (ARN n) as [b|] eqn:Hb; [|done]. simpl.
    assert (Exists no_identity P) as HP.
    { destruct H as [[_ H] | H]; [unfold no_identity in H; congruence|].
      apply Exists_cons in H as [H | H]; [unfold no_identity in H; congruence | done]. }
    destruct (_ && _); apply IH; by right.
Qed.

Lemma check_updates_panics P N U :
  P ≠ [] → N ≠ [] →
  Exists no_identity P ∨ Exists no_identity N →
  check_updates N P U = Panics.
Proof.
  intros HP. revert U. induction N as [|n N IH]; intros U HN H; [done|].
  simpl.
  destruct (decide (Exists no_identity P)) as [HxP | HxP].
  { rewrite scan_saved_panics; [done | by right]. }
  destruct H as [H | H]; [done|].
  destruct (ARN n) as [b|] eqn:Hb.
  - rewrite scan_saved_spec; [| by exists b |].
    + simpl. apply Exists_cons in H as [H | H]; [unfold no_identity in H; congruence|].
      apply IH; [|by right]. intros ->. by apply Exists_nil in H.
    + apply Forall_forall. intros p Hp.
      destruct (ARN p) as [a|] eqn:Ha; [by exists a|].
      destruct HxP. apply Exists_exists. by exists p.
  - rewrite scan_saved_panics; [done | by left].
Qed.

Lemma not_Exists_no_identity P :
  ¬ Exists no_identity P → Forall has_identity P.
Proof.
  intros H. apply Forall_forall. intros p Hp.
  destruct (ARN p) as [a|] eqn:Ha; [by exists a|].
  destruct H. apply Exists_exists. by exists p.
Qed.

(** X1. The detector panics exactly when both snapshots hold a record and
    some record of either has no identity; in every other case it returns.
    The loops are bounded by the two lists, so it always ends. *)
Theorem ChangeDetector_panics_iff P N :
  (ChangeDetector P N = Panics ↔
     P ≠ [] ∧ N ≠ [] ∧ (Exists no_identity P ∨ Exists no_identity N)) ∧
  ChangeDetector P N ≠ OutOfFuel.
Proof.
  unfold ChangeDetector.
  destruct P as [|p P].
  { rewrite check_updates_no_saved. split; [|done]. split; [done | by intros [? _]]. }
  destruct N as [|n N].
  { simpl. split; [|done]. split; [done | by intros (_ & ? & _)]. }
  destruct (decide (Exists no_identity (p :: P))) as [HP | HP].
  { rewrite check_updates_panics by (done || by left). split; [|done].
    split; [intros _; repeat split; [done..|by left] | done]. }
  destruct (decide (Exists no_identity (n :: N))) as [HN | HN].
  { rewrite check_updates_panics by (done || by right). split; [|done].
    split; [intros _; repeat split; [done..|by right] | done]. }
  rewrite check_updates_spec by by apply not_Exists_no_identity.
  split; [|done]. split; [done | intros (_ & _ & [? | ?]); done].
Qed.

Lemma hits_absent n P :
  ARN n ∉ (ARN <$> P) → hits n P = 0%nat.
Proof.
  induction P as [|p P IH]; intros H; [done|].
  rewrite hits_cons. simpl in H. apply not_elem_of_cons in H as [Hne Hnin].
  destruct (drift n p) eqn:Hd.
  - apply drift_spec in Hd as [Harn _]. congruence.
  - by apply IH.
Qed.

Lemma hits_changed n P :
  NoDup (ARN <$> P) →
  replicate (hits n P) n = if changed P n then [n] else [].
Proof.
  unfold changed. induction P as [|p P IH]; intros Hnd; [done|].
  simpl in Hnd. apply NoDup_cons in Hnd as [Hnin Hnd].
  rewrite hits_cons. simpl. destruct (drift n p) eqn:Hd; simpl.
  - apply drift_spec in Hd as [Harn _]. rewrite hits_absent; [done|].
    by rewrite <- Harn.
  - by apply IH.
Qed.

Lemma updates_filter P N :
  NoDup (ARN <$> P) → updates P N = List.filter (changed P) N.
Proof.
  intros Hnd. unfold updates. induction N as [|n N IH]; [done|].
  simpl. rewrite IH, hits_changed by done. by destruct (changed P n).
Qed.

(** X2. When no two stored records share an identity, the detector returns
    the new snapshot filtered by "some stored record has this identity and
    another version": each changed record once, in the order of the new
    snapshot. *)
Theorem ChangeDetector_filter P N :
  Forall has_identity P → Forall has_identity N →
  NoDup (ARN <$> P) →
  ChangeDetector P N = Returns (List.filter (changed P) N).
Proof.
  intros HP HN Hnd. by rewrite ChangeDetector_updates, updates_filter.
Qed.

Lemma scan_saved_same_identities n P P' U :
  same_identities P P' → scan_saved n P U = scan_saved n P' U.
Proof.
  intros H. revert U. induction H as [|p p' P P' [Harn Hver] _ IH]; intros U; [done|].
  simpl. rewrite Harn, Hver.
  destruct (ARN p') as [a|]; [|done]. simpl.
  destruct (ARN n) as [b|]; [|done]. simpl.
  destruct (_ && _); apply IH.
Qed.

(** X3. Of the stored snapshot the detector reads identities and versions
    only: two stored snapshots that agree on both, record by record, give
    the same outcome on every new snapshot, whatever their names and
    values. *)
Theorem ChangeDetector_same_identities P P' N :
  same_identities P P' → ChangeDetector P N = ChangeDetector P' N.
Proof.
  intros H. unfold ChangeDetector. generalize (@nil types_Parameter) as U.
  induction N as [|n N IH]; intros U; [done|].
  simpl. rewrite (scan_saved_same_identities _ _ _ _ H).
  destruct (scan_saved n P' U) as [U'| |]; simpl; [apply IH | done..].
Qed.

End DetectorMore.

Lemma ChangeDetector_filter_witness :
  ChangeDetector [Scenario.A1; Scenario.B1]
    [Scenario.A2; Scenario.B1; Scenario.C1]
  = Returns (List.filter (changed [Scenario.A1; Scenario.B1])
               [Scenario.A2; Scenario.B1; Scenario.C1]).
Proof.
  apply ChangeDetector_filter.
  - repeat constructor; eexists; reflexivity.
  - repeat constructor; eexists; reflexivity.
  - apply NoDup_cons. split.
    + by intros [=]%list_elem_of_singleton.
    + apply NoDup_singleton.
Defined.

Lemma ChangeDetector_same_identities_witness :
  ChangeDetector [Cases.A1'; Scenario.B1] [Scenario.A2; Scenario.B1]
  = ChangeDetector [Scenario.A1; Scenario.B1] [Scenario.A2; Scenario.B1].
Proof.
  apply ChangeDetector_same_identities.
  repeat constructor.
Defined.

(** ** The flat map of [Read] *)

Section KeyMore.

Implicit Types (cb : option (string → string)) (mp : flat_map_t).

(** Records with a key are filed one after the other; the loop goes on with
    what follows them. *)
Lemma fill_map_app_keyed cb before rest mp :
  Forall (keyed cb) before →
  fill_map cb (before ++ rest) mp = fill_map cb rest (flat_of cb before mp).
Proof.
  intros H. revert mp.
  induction H as [|p l [[name Hname] Hkey] _ IH]; intros mp; [done|].
  simpl app. rewrite (fill_map_step _ _ _ _ _ Hname).
  rewrite bool_decide_eq_false_2 by done. apply IH.
Qed.

Lemma fill_map_inv cb p l mp out :
  fill_map cb (p :: l) mp = Returns (inl out) →
  keyed cb p ∧ fill_map cb l (<[key_of cb p := Value p]> mp) = Returns (inl out).
Proof.
  destruct (Name p) as [name|] eqn:Hname.
  - rewrite (fill_map_step _ _ _ _ _ Hname).
    destruct (bool_decide (key_of cb p = "")) eqn:E; [done|].
    apply bool_decide_eq_false in E. intros H. repeat split; [by exists name | done..].
  - simpl. by rewrite Hname.
Qed.

(** X4. When the loop over the fetched records ends with a flat map, a key
    holds the value of the last fetched record filed under it, and a key no
    record is filed under holds what it held before: on a key that two
    records share, the later record silently overwrites the earlier. *)
Theorem fill_map_last_wins cb fetched mp0 mp :
  fill_map cb fetched mp0 = Returns (inl mp) →
  ∀ k, mp !! k =
       match last_with_key cb k fetched with
       | Some p => Some (Value p)
       | None => mp0 !! k
       end.
Proof.
  revert mp0. induction fetched as [|p l IH]; intros mp0 H k.
  - by injection H as <-.
  - apply fill_map_inv in H as [_ H]. rewrite (IH _ H k).
    unfold last_with_key. simpl.
    destruct (decide (key_of cb p = k)) as [Hk | Hk].
    + rewrite bool_decide_eq_true_2 by done. rewrite last_cons.
      destruct (last _); [done|]. rewrite Hk. apply lookup_insert_eq.
    + rewrite bool_decide_eq_false_2 by done.
      destruct (last _); [done|]. by apply lookup_insert_ne.
Qed.

End KeyMore.

Lemma fill_map_last_wins_witness :
  (<["/app/a" := Some "3"]> (<["/app/a" := Some "1"]> ∅) : flat_map_t)
    !! "/app/a" =
  match last_with_key None "/app/a" [Scenario.A1; Cases.A3] with
  | Some p => Some (Value p)
  | None => (∅ : flat_map_t) !! "/app/a"
  end.
Proof.
  apply (fill_map_last_wins None [Scenario.A1; Cases.A3] ∅).
  reflexivity.
Defined.

(** ** [Read] and the ticks, further *)

Section ProviderMore.

Context {World NestedMap : Type}.
Variable GetParametersByPath :
  World → GetParametersByPathInput → World * (GetParametersByPathOutput + error).
Variable Unflatten : flat_map_t → string → NestedMap.

Local Abbreviation pass := (fetch_pages GetParametersByPath).
Local Abbreviation read := (Read GetParametersByPath Unflatten).
Local Abbreviation tick := (Watch_tick GetParametersByPath).
Local Abbreviation loop := (Watch_loop GetParametersByPath).

(** A pass from the input [Read] builds that fetched every page leaves that
    very input. *)
Lemma fetch_pages_Read_input fuel w cfg acc w' i fetched :
  pass fuel w (Read_input cfg) acc = Returns (w', i, inl fetched) →
  i = Read_input cfg.
Proof.
  intros H. apply fetch_pages_input in H as (HP & HD & HT).
  specialize (HT fetched eq_refl). destruct i as [p d t]. simpl in *.
  unfold Read_input. congruence.
Qed.

Lemma Read_keyed fuel w ps w1 i fetched :
  cfg_Path (config ps) ≠ "" →
  pass fuel w (Read_input (config ps)) [] = Returns (w1, i, inl fetched) →
  Forall (keyed (cb ps)) fetched →
  read fuel w ps
    = Returns (w1,
               {| config := config ps; input := Read_input (config ps);
                  params := fetched; cb := cb ps |},
               (Some (Unflatten (flat_of (cb ps) fetched ∅)
                        (Delimiter (config ps))), None)).
Proof.
  intros Hpath Hpass Hkeyed.
  rewrite (Read_fetched _ _ _ _ _ _ _ _ Hpath Hpass).
  rewrite fill_map_keyed by done. simpl.
  by rewrite (fetch_pages_Read_input _ _ _ _ _ _ _ Hpass).
Qed.

Lemma named_keyed (f : option (string → string)) fetched names :
  Name <$> fetched = Some <$> names →
  Forall (λ n, default id f n ≠ "") names →
  Forall (keyed f) fetched ∧ key_of f <$> fetched = default id f <$> names.
Proof.
  revert names. induction fetched as [|p l IH]; intros [|n names] Hnames Hkeys;
    try discriminate.
  - done.
  - injection Hnames as Hp Hl. apply Forall_cons in Hkeys as [Hn Hkeys].
    destruct (IH names Hl Hkeys) as [Hall Heq].
    pose proof (key_of_named f p n Hp) as Hkey. split.
    + apply Forall_cons. split; [|done].
      split; [by exists n | by rewrite Hkey].
    + rewrite !fmap_cons. by rewrite Hkey, Heq.
Qed.

(** X5. With a path configured, a fetch that succeeds and records that
    carry the names [names], whose transformed keys, [key] applied to each
    name with [key] the transformer or the identity without one, are not
    empty, [Read] returns the flat map unflattened with the configured
    delimiter and a nil error; the keys of the flat map are exactly the
    transformed keys; the provider stores the fetched records as its
    snapshot, and its pagination input is the record of the configured path,
    the configured decryption flag and a nil token. *)
Theorem Read_success fuel w ps w1 i fetched names (key : string → string) :
  cfg_Path (config ps) ≠ "" →
  pass fuel w
    {| Path := Some (cfg_Path (config ps));
       WithDecryption := Some (cfg_WithDecryption (config ps));
       NextToken := None |} [] = Returns (w1, i, inl fetched) →
  key = default id (cb ps) →
  Name <$> fetched = Some <$> names →
  Forall (λ n, key n ≠ "") names →
  ∃ mp : flat_map_t,
    fill_map (cb ps) fetched ∅ = Returns (inl mp) ∧
    dom mp = list_to_set (key <$> names) ∧
    read fuel w ps
      = Returns (w1,
                 {| config := config ps;
                    input := {| Path := Some (cfg_Path (config ps));
                                WithDecryption :=
                                  Some (cfg_WithDecryption (config ps));
                                NextToken := None |};
                    params := fetched; cb := cb ps |},
                 (Some (Unflatten mp (Delimiter (config ps))), None)).
Proof.
  intros Hpath Hpass -> Hnames Hkeys.
  destruct (named_keyed _ _ _ Hnames Hkeys) as [Hkeyed Heq].
  exists (flat_of (cb ps) fetched ∅).
  split; [by apply fill_map_keyed|]. split.
  - by rewrite dom_flat_of, dom_empty_L, (left_id_L ∅ (∪)), Heq.
  - by eapply Read_keyed.
Qed.

(** X6. With a path configured, when a page request of [Read] fails, [Read]
    returns a nil map and the client's error, and the provider keeps the
    snapshot and the configuration it had: the records of the pages fetched
    before the failure are dropped. Its pagination input now carries the
    configured path and decryption flag. *)
Theorem Read_fetch_failure fuel w ps w1 i err :
  cfg_Path (config ps) ≠ "" →
  pass fuel w (Read_input (config ps)) [] = Returns (w1, i, inr err) →
  ∃ ps1,
    read fuel w ps = Returns (w1, ps1, (None, Some err)) ∧
    params ps1 = params ps ∧ config ps1 = config ps ∧ cb ps1 = cb ps ∧
    Path (input ps1) = Some (cfg_Path (config ps)) ∧
    WithDecryption (input ps1) = Some (cfg_WithDecryption (config ps)).
Proof.
  intros Hpath Hpass. exists (set_input i ps).
  split; [by apply Read_failed|].
  apply fetch_pages_input in Hpass as (HP & HD & _). by repeat split.
Qed.

(** X7. [Read] stops at the first record whose key is empty: when the
    records before it all have a key, it returns a nil map and the error
    [transformed key is empty], whatever the records after it are, a record
    without name included. *)
Theorem Read_stops_at_first_empty_key fuel w ps w1 i before p after :
  cfg_Path (config ps) ≠ "" →
  pass fuel w (Read_input (config ps)) []
    = Returns (w1, i, inl (before ++ p :: after)) →
  Forall (keyed (cb ps)) before →
  empty_key (cb ps) p →
  ∃ ps1,
    read fuel w ps
      = Returns (w1, ps1, (None, Some (errors_New "transformed key is empty"))).
Proof.
  intros Hpath Hpass Hbefore (name & Hname & Hkey).
  exists (set_params (before ++ p :: after) (set_input i ps)).
  rewrite (Read_fetched _ _ _ _ _ _ _ _ Hpath Hpass).
  rewrite fill_map_app_keyed by done.
  rewrite (fill_map_step _ _ _ _ _ Hname).
  rewrite bool_decide_eq_true_2; [done|]. unfold key_of. by rewrite Hname.
Qed.

(** X8. [Read] panics on the first record whose [Name] pointer is nil, when
    the records before it all have a key: the name is dereferenced before
    anything else is done with the record. *)
Theorem Read_panics_on_nameless_record fuel w ps w1 i before p after :
  cfg_Path (config ps) ≠ "" →
  pass fuel w (Read_input (config ps)) []
    = Returns (w1, i, inl (before ++ p :: after)) →
  Forall (keyed (cb ps)) before →
  Name p = None →
  read fuel w ps = Panics.
Proof.
  intros Hpath Hpass Hbefore Hname.
  rewrite (Read_fetched _ _ _ _ _ _ _ _ Hpath Hpass).
  rewrite fill_map_app_keyed by done. simpl. by rewrite Hname.
Qed.

Lemma fetch_pages_endless fuel w i acc :
  (∀ w i, ∃ w' result t,
     GetParametersByPath w i = (w', inl result) ∧ out_NextToken result = Some t) →
  pass fuel w i acc = OutOfFuel.
Proof.
  intros Hmore. revert w i acc.
  induction fuel as [|fuel IH]; intros w i acc; [done|].
  simpl. destruct (Hmore w i) as (w' & result & t & -> & ->). apply IH.
Qed.

(** X9. The pagination loop has no bound of its own: against a client whose
    every answer is a page that announces another one, neither [Read] (with
    a path configured) nor a tick of [Watch] returns, whatever the fuel. *)
Theorem pagination_without_end fuel w ps :
  (∀ w i, ∃ w' result t,
     GetParametersByPath w i = (w', inl result) ∧ out_NextToken result = Some t) →
  (cfg_Path (config ps) ≠ "" →
   Read GetParametersByPath Unflatten fuel w ps = OutOfFuel) ∧
  Watch_tick GetParametersByPath fuel w ps = OutOfFuel.
Proof.
  intros Hmore. split.
  - intros Hpath. unfold Read. rewrite bool_decide_eq_false_2 by done.
    simpl. by rewrite fetch_pages_endless.
  - unfold Watch_tick. by rewrite fetch_pages_endless.
Qed.

(** What a tick calls the callback with. *)
Lemma Watch_tick_calls fuel w ps w' ps' calls :
  tick fuel w ps = Returns (w', ps', calls) →
  calls = [] ∨ (∃ c, calls = [c] ∧ (is_failure_call c ∨ is_change_call c)).
Proof.
  unfold Watch_tick.
  destruct (pass fuel w (input ps) []) as [[[w1 i] [N | err]]| |];
    simpl; try discriminate.
  - destruct (ChangeDetector (params ps) N) as [U| |]; simpl; try discriminate.
    destruct (0 <? length U)%nat eqn:Hlen; intros [= <- <- <-]; [|by left].
    right. eexists. split; [done|]. right. exists U. split; [by destruct U | done].
  - intros [= <- <- <-]. right. eexists. split; [done|]. left. by exists err.
Qed.

(** X10. Over any run of the loop of [Watch] that gets through [ticks]
    ticks, the callback is called at most once per tick, and each call
    either reports one failed fetch, as [(nil, err)], or carries one change
    event that is not empty, with a nil error. *)
Theorem Watch_loop_calls fuel ticks w ps w' ps' groups :
  loop fuel ticks w ps = Returns (w', ps', groups) →
  length groups = ticks ∧
  Forall (λ calls,
            calls = [] ∨
            (∃ c, calls = [c] ∧ (is_failure_call c ∨ is_change_call c)))
         groups.
Proof.
  revert w ps groups. induction ticks as [|ticks IH]; intros w ps groups; simpl.
  - by intros [= <- <- <-].
  - destruct (tick fuel w ps) as [[[w1 ps1] calls]| |] eqn:Htick;
      simpl; try discriminate.
    destruct (loop fuel ticks w1 ps1) as [[[w2 ps2] later]| |] eqn:Hloop;
      simpl; try discriminate.
    intros [= <- <- <-]. apply IH in Hloop as [Hlen Hall].
    split; [simpl; by rewrite Hlen|].
    apply Forall_cons. split; [|done]. by eapply Watch_tick_calls.
Qed.

Lemma Watch_tick_no_baseline fuel w ps :
  params ps = [] →
  tick fuel w ps ≠ Panics ∧
  ∀ w' ps' calls,
    tick fuel w ps = Returns (w', ps', calls) →
    calls = [] ∨ ∃ c, calls = [c] ∧ is_failure_call c.
Proof.
  intros Hnone. unfold Watch_tick.
  destruct (pass fuel w (input ps) []) as [[[w1 i] [N | err]]| |] eqn:Hpass;
    simpl.
  - rewrite Hnone, ChangeDetector_no_baseline. simpl. split; [done|].
    intros w' ps' calls [= <- <- <-]. by left.
  - split; [done|]. intros w' ps' calls [= <- <- <-].
    right. eexists. split; [done|]. by exists err.
  - by apply fetch_pages_no_panic in Hpass.
  - split; [done | discriminate].
Qed.

(** The loop of [Watch] on a provider whose stored snapshot is empty. *)
Lemma Watch_loop_no_baseline fuel ticks w ps :
  params ps = [] →
  loop fuel ticks w ps ≠ Panics ∧
  ∀ w' ps' groups,
    loop fuel ticks w ps = Returns (w', ps', groups) →
    Forall (λ calls, calls = [] ∨ ∃ c, calls = [c] ∧ is_failure_call c) groups.
Proof.
  revert w ps. induction ticks as [|ticks IH]; intros w ps Hnone; simpl.
  - split; [done|]. by intros w' ps' groups [= <- <- <-].
  - destruct (Watch_tick_no_baseline fuel w ps Hnone) as [Hnp Hcalls].
    destruct (tick fuel w ps) as [[[w1 ps1] calls]| |] eqn:Htick; simpl;
      [|done|split; [done | discriminate]].
    assert (params ps1 = []) as Hnone1.
    { apply Watch_tick_frame in Htick as (-> & _). done. }
    destruct (IH w1 ps1 Hnone1) as [Hnp' Hgroups].
    destruct (loop fuel ticks w1 ps1) as [[[w2 ps2] later]| |] eqn:Hloop; simpl;
      [|done|split; [done | discriminate]].
    split; [done|]. intros w' ps' groups [= <- <- <-].
    apply Forall_cons. split; [by eapply Hcalls | by eapply Hgroups].
Qed.

(** X11. The goroutine of [Watch] on a provider whose stored snapshot is
    empty, as it is until a [Read] fetched something, never reports a
    change, however many ticks run and whatever the store returns: every
    call to the callback reports a failed fetch. It panics in one case only,
    at the ticker, when the watch interval is not positive; no tick
    panics. *)
Theorem Watch_without_baseline_reports_nothing fuel ticks w ps :
  params ps = [] →
  (Watch_goroutine GetParametersByPath fuel ticks w ps = Panics ↔
     WatchInterval (config ps) ≤ 0) ∧
  ∀ w' ps' groups,
    Watch_goroutine GetParametersByPath fuel ticks w ps
      = Returns (w', ps', groups) →
    Forall (λ calls, calls = [] ∨ ∃ c, calls = [c] ∧ is_failure_call c) groups.
Proof.
  intros Hnone.
  destruct (Watch_loop_no_baseline fuel ticks w ps Hnone) as [Hnp Hgroups].
  unfold Watch_goroutine.
  destruct (WatchInterval (config ps) <=? 0) eqn:E.
  - apply Z.leb_le in E. split; [done | discriminate].
  - apply Z.leb_gt in E. split; [|exact Hgroups].
    split; [done | lia].
Qed.

(** X12. After a [Read] that succeeded, a tick that fetches the same
    records again, from a store in any state, calls the callback with
    nothing and leaves the provider exactly as [Read] left it, provided the
    records carry identities and those that share one share a version. The
    tick's pass starts from the input [Read] left: the configured path and
    flag, and no token. *)
Theorem Read_then_quiet_tick fuel w ps w1 i fetched fuel' w' w2 i2 :
  cfg_Path (config ps) ≠ "" →
  pass fuel w (Read_input (config ps)) [] = Returns (w1, i, inl fetched) →
  Forall (keyed (cb ps)) fetched →
  Forall has_identity fetched → versions_agree fetched →
  pass fuel' w' (Read_input (config ps)) [] = Returns (w2, i2, inl fetched) →
  ∃ ps1 m,
    read fuel w ps = Returns (w1, ps1, (Some m, None)) ∧
    input ps1 = Read_input (config ps) ∧
    tick fuel' w' ps1 = Returns (w2, ps1, []).
Proof.
  intros Hpath Hpass Hkeyed Hid Hagree Hnext.
  eexists _, _. split; [by eapply Read_keyed|]. split; [done|].
  rewrite (Watch_tick_fetched GetParametersByPath fuel' w'
             {| config := config ps; input := Read_input (config ps);
                params := fetched; cb := cb ps |} w2 i2 fetched Hnext).
  simpl. rewrite ChangeDetector_updates by done.
  rewrite (proj2 (updates_same_nil fetched) Hagree). simpl.
  by rewrite (fetch_pages_Read_input _ _ _ _ _ _ _ Hnext).
Qed.

End ProviderMore.

Lemma Read_success_witness :
  ∃ mp : flat_map_t,
    fill_map (Some Scenario.trim)
      [Scenario.A1; Scenario.B1; Scenario.C1; Scenario.D1; Scenario.E1] ∅
      = Returns (inl mp) ∧
    dom mp = list_to_set ["a"; "b"; "c"; "d/e"; "d/f"] ∧
    Read scripted (λ (mp : flat_map_t) (delim : string), mp) 3
      Scenario.three_pages
      (ProviderWithClient Scenario.cfg (Some Scenario.trim))
      = Returns ([],
                 {| config := Scenario.cfg;
                    input := {| Path := Some "/app";
                                WithDecryption := Some true;
                                NextToken := None |};
                    params := [Scenario.A1; Scenario.B1; Scenario.C1;
                               Scenario.D1; Scenario.E1];
                    cb := Some Scenario.trim |},
                 (Some mp, None)).
Proof.
  apply (Read_success scripted (λ mp _, mp) 3%nat Scenario.three_pages
           (ProviderWithClient Scenario.cfg (Some Scenario.trim)) []
           {| Path := Some "/app"; WithDecryption := Some true;
              NextToken := None |}
           [Scenario.A1; Scenario.B1; Scenario.C1; Scenario.D1; Scenario.E1]
           ["/app/a"; "/app/b"; "/app/c"; "/app/d/e"; "/app/d/f"]
           Scenario.trim).
  - discriminate.
  - reflexivity.
  - reflexivity.
  - reflexivity.
  - repeat constructor; discriminate.
Defined.

Lemma Read_fetch_failure_witness :
  ∃ ps1,
    Read scripted (λ (mp : flat_map_t) (delim : string), mp) 2
      Scenario.second_page_fails Scenario.seeded
      = Returns ([], ps1, (None, Some (ClientError "ThrottlingException"))) ∧
    params ps1 = params Scenario.seeded ∧
    config ps1 = config Scenario.seeded ∧ cb ps1 = cb Scenario.seeded ∧
    Path (input ps1) = Some (cfg_Path (config Scenario.seeded)) ∧
    WithDecryption (input ps1)
      = Some (cfg_WithDecryption (config Scenario.seeded)).
Proof.
  apply (Read_fetch_failure scripted (λ mp _, mp) 2%nat
           Scenario.second_page_fails Scenario.seeded []
           (set_NextToken (Some "t1") (Read_input Scenario.cfg))).
  - discriminate.
  - reflexivity.
Defined.

Lemma Read_stops_at_first_empty_key_witness :
  ∃ ps1,
    Read scripted (λ (mp : flat_map_t) (delim : string), mp) 1
      Cases.bare_prefix_then_nameless
      (ProviderWithClient Scenario.cfg (Some Scenario.trim))
    = Returns ([], ps1, (None, Some (errors_New "transformed key is empty"))).
Proof.
  apply (Read_stops_at_first_empty_key scripted (λ mp _, mp) 1%nat
           Cases.bare_prefix_then_nameless
           (ProviderWithClient Scenario.cfg (Some Scenario.trim))
           [] (Read_input Scenario.cfg)
           [Scenario.A2] Scenario.R1 [Cases.nameless]).
  - discriminate.
  - reflexivity.
  - repeat constructor; try (eexists; reflexivity); discriminate.
  - exists "/app/". split; reflexivity.
Defined.

Lemma Read_panics_on_nameless_record_witness :
  Read scripted (λ (mp : flat_map_t) (delim : string), mp) 1
    Cases.page_with_nameless Scenario.fresh
  = Panics.
Proof.
  apply (Read_panics_on_nameless_record scripted (λ mp _, mp) 1%nat
           Cases.page_with_nameless Scenario.fresh
           [] (Read_input Scenario.cfg)
           [Scenario.A1] Cases.nameless [Scenario.B1]).
  - discriminate.
  - reflexivity.
  - repeat constructor; try (eexists; reflexivity); discriminate.
  - reflexivity.
Defined.

Lemma pagination_without_end_witness :
  (cfg_Path (config Scenario.fresh) ≠ "" →
   Read endless (λ (mp : flat_map_t) (delim : string), mp) 1000 tt
     Scenario.fresh = OutOfFuel) ∧
  Watch_tick endless 1000 tt Scenario.seeded = OutOfFuel.
Proof.
  split.
  - apply (pagination_without_end endless (λ mp _, mp) 1000%nat tt
             Scenario.fresh).
    intros w i. by exists tt, {| out_Parameters := []; out_NextToken := Some "more" |}, "more".
  - apply (pagination_without_end endless
             (λ (mp : flat_map_t) (delim : string), mp) 1000%nat tt
             Scenario.seeded).
    intros w i. by exists tt, {| out_Parameters := []; out_NextToken := Some "more" |}, "more".
Defined.

Lemma Watch_loop_calls_witness :
  length [[Call (Some [Scenario.A2]) None]; [Call (Some [Scenario.A2]) None]]
    = 2%nat ∧
  Forall (λ calls,
            calls = [] ∨
            (∃ c, calls = [c] ∧ (is_failure_call c ∨ is_change_call c)))
         [[Call (Some [Scenario.A2]) None]; [Call (Some [Scenario.A2]) None]].
Proof.
  apply (Watch_loop_calls scripted 1%nat 2%nat Scenario.two_quiet_ticks
           Scenario.seeded [] Scenario.seeded).
  reflexivity.
Defined.

Lemma Watch_without_baseline_reports_nothing_witness :
  (Watch_goroutine scripted 1 2 Scenario.two_quiet_ticks Scenario.fresh
     = Panics ↔ WatchInterval (config Scenario.fresh) ≤ 0) ∧
  ∀ w' ps' groups,
    Watch_goroutine scripted 1 2 Scenario.two_quiet_ticks Scenario.fresh
      = Returns (w', ps', groups) →
    Forall (λ calls, calls = [] ∨ ∃ c, calls = [c] ∧ is_failure_call c) groups.
Proof.
  apply (Watch_without_baseline_reports_nothing scripted 1%nat 2%nat
           Scenario.two_quiet_ticks Scenario.fresh).
  reflexivity.
Defined.

Lemma Read_then_quiet_tick_witness :
  ∃ ps1 m,
    Read scripted (λ (mp : flat_map_t) (delim : string), mp) 1
      Scenario.two_quiet_ticks Scenario.fresh
      = Returns ([(None, page [Scenario.A2; Scenario.B1; Scenario.C1] None)],
                 ps1, (Some m, None)) ∧
    input ps1 = Read_input (config Scenario.fresh) ∧
    Watch_tick scripted 1
      [(None, page [Scenario.A2; Scenario.B1; Scenario.C1] None)] ps1
      = Returns ([], ps1, []).
Proof.
  apply (Read_then_quiet_tick scripted (λ mp _, mp) 1%nat
           Scenario.two_quiet_ticks Scenario.fresh
           [(None, page [Scenario.A2; Scenario.B1; Scenario.C1] None)]
           (Read_input Scenario.cfg)
           [Scenario.A2; Scenario.B1; Scenario.C1] 1%nat
           [(None, page [Scenario.A2; Scenario.B1; Scenario.C1] None)]
           [] (Read_input Scenario.cfg)).
  - discriminate.
  - reflexivity.
  - repeat constructor; try (eexists; reflexivity); discriminate.
  - repeat constructor; eexists; reflexivity.
  - intros p q Hp Hq.
    repeat (apply elem_of_cons in Hp as [-> | Hp]);
      try (by apply elem_of_nil in Hp);
      repeat (apply elem_of_cons in Hq as [-> | Hq]);
      try (by apply elem_of_nil in Hq);
      first [reflexivity | discriminate].
  - reflexivity.
Defined.

(** ** The requests of a pass *)

Section RequestsMore.

Context {World NestedMap : Type}.
Variable GetParametersByPath :
  World → GetParametersByPathInput → World * (GetParametersByPathOutput + error).
Variable Unflatten : flat_map_t → string → NestedMap.

Lemma fetch_pages_logged_requests fuel w log i acc w' log' i' r :
  fetch_pages (logged GetParametersByPath) fuel (w, log) i acc
    = Returns ((w', log'), i', r) →
  ∃ later, log' = log ++ i :: later ∧ Forall (follows_up i) later.
Proof.
  revert w log i acc. induction fuel as [|fuel IH]; intros w log i acc H.
  - discriminate.
  - simpl in H. unfold logged in H at 1. simpl in H.
    destruct (GetParametersByPath w i) as [w1 [result | err]].
    + destruct (out_NextToken result) as [t|].
      * apply IH in H as (later & -> & Hlater).
        exists (set_NextToken (Some t) i :: later).
        split; [by rewrite <- app_assoc|].
        apply Forall_cons. split; [by repeat split|].
        eapply Forall_impl; [exact Hlater|]. by intros q (? & ? & ?).
      * injection H as <- <- <- <-. by exists [].
    + injection H as <- <- <- <-. by exists [].
Qed.

(** X13. The first request of a tick of [Watch] is the input the provider
    holds at that moment, token included, and every later request of the
    tick carries the same path and decryption flag and some token. [Watch]
    never consults the configured path: on a provider on which [Read] never
    ran the requests carry a nil path, and after a pass that was cut short
    the next tick starts from the token that pass left. *)
Theorem Watch_tick_requests fuel w log ps w' log' ps' calls :
  Watch_tick (logged GetParametersByPath) fuel (w, log) ps
    = Returns ((w', log'), ps', calls) →
  ∃ later, log' = log ++ input ps :: later ∧ Forall (follows_up (input ps)) later.
Proof.
  unfold Watch_tick.
  destruct (fetch_pages _ fuel (w, log) (input ps) [])
    as [[[[w1 log1] i1] [N | err]]| |] eqn:Hpass; simpl; try discriminate.
  - apply fetch_pages_logged_requests in Hpass as (later & -> & Hlater).
    destruct (ChangeDetector (params ps) N) as [U| |]; simpl; try discriminate.
    destruct (0 <? length U)%nat; intros [= <- <- <- <-]; by exists later.
  - apply fetch_pages_logged_requests in Hpass as (later & -> & Hlater).
    intros [= <- <- <- <-]. by exists later.
Qed.



End RequestsMore.

Lemma Watch_tick_requests_witness :
  ∃ later,
    [Read_input Scenario.cfg; set_NextToken (Some "t1") (Read_input Scenario.cfg)]
      = [] ++ input Scenario.seeded :: later ∧
    Forall (follows_up (input Scenario.seeded)) later.
Proof.
  apply (Watch_tick_requests scripted 2%nat Scenario.second_page_fails []
           Scenario.seeded []
           [Read_input Scenario.cfg;
            set_NextToken (Some "t1") (Read_input Scenario.cfg)]
           (set_input (set_NextToken (Some "t1") (Read_input Scenario.cfg))
              Scenario.seeded)
           [Call None (Some (ClientError "ThrottlingException"))]).
  reflexivity.
Defined.


(** ** [Provider] *)

Section ProviderDefaults.

Implicit Types (c : aws_Config) (cfg : Config) (f : option (string → string)).

(** The configuration [Provider] stores. *)
Lemma Provider_config c cfg f c' ps :
  Provider (inl c) cfg f = Some (c', ps) →
  config ps =
    set_WatchInterval
      (if WatchInterval cfg =? 0 then 600 * Second else WatchInterval cfg)
      (set_Delimiter
         (if bool_decide (Delimiter cfg = "") then "/" else Delimiter cfg) cfg) ∧
  input ps = zero_input ∧ params ps = [] ∧ cb ps = f.
Proof.
  unfold Provider. intros [= _ <-]. simpl. split; [|done].
  destruct cfg as [d p wd k s r g wi]; simpl.
  destruct (bool_decide (d = "")); simpl; destruct (wi =? 0); done.
Qed.

(** X15. [Provider] returns nil exactly when loading the default
    configuration failed. Otherwise the provider it returns has an empty
    snapshot, a zero pagination input and the given transformer, and its
    configuration is the given one except for two defaults: an empty
    delimiter becomes ["/"] and a zero watch interval becomes 600 seconds;
    so the delimiter is never empty and the interval never zero, and every
    value that was set is kept. *)
Theorem Provider_defaults loaded cfg f :
  (Provider loaded cfg f = None ↔ ∃ err, loaded = inr err) ∧
  ∀ c' ps,
    Provider loaded cfg f = Some (c', ps) →
    input ps = zero_input ∧ params ps = [] ∧ cb ps = f ∧
    Delimiter (config ps) ≠ "" ∧
    (Delimiter cfg = "" → Delimiter (config ps) = "/") ∧
    (Delimiter cfg ≠ "" → Delimiter (config ps) = Delimiter cfg) ∧
    WatchInterval (config ps) ≠ 0 ∧
    (WatchInterval cfg = 0 → WatchInterval (config ps) = 600 * Second) ∧
    (WatchInterval cfg ≠ 0 → WatchInterval (config ps) = WatchInterval cfg) ∧
    cfg_Path (config ps) = cfg_Path cfg ∧
    cfg_WithDecryption (config ps) = cfg_WithDecryption cfg ∧
    AWSAccessKeyID (config ps) = AWSAccessKeyID cfg ∧
    AWSSecretAccessKey (config ps) = AWSSecretAccessKey cfg ∧
    AWSRoleARN (config ps) = AWSRoleARN cfg ∧
    AWSRegion (config ps) = AWSRegion cfg.
Proof.
  split.
  - destruct loaded as [c | err]; simpl.
    + split; [done | by intros [err [=]]].
    + split; [by exists err | done].
  - intros c' ps H. destruct loaded as [c | err]; [|done].
    apply Provider_config in H as (-> & -> & -> & ->). simpl.
    repeat split; try done.
    + by case_bool_decide.
    + intros ->. by rewrite bool_decide_eq_true_2.
    + intros Hd. by rewrite bool_decide_eq_false_2.
    + destruct (WatchInterval cfg =? 0) eqn:E; [done | by apply Z.eqb_neq].
    + by intros ->.
    + intros Hw. apply Z.eqb_neq in Hw. by rewrite Hw.
Qed.

(** X16. The client [Provider] builds uses the configured region when one is
    given and the loaded region otherwise. Without a role it uses the static
    pair of key id and secret when both are given, and the loaded
    credentials when either is missing; with a role it uses cached
    assume-role credentials whose STS client has that same region and those
    same credentials. *)
Theorem Provider_credentials c cfg f c' ps :
  Provider (inl c) cfg f = Some (c', ps) →
  Region c' = chosen_region c cfg ∧
  Credentials c' =
    (if bool_decide (AWSRoleARN cfg = "") then base_credentials c cfg
     else NewCredentialsCache
            (NewAssumeRoleProvider (chosen_region c cfg)
               (base_credentials c cfg) (AWSRoleARN cfg))).
Proof.
  unfold Provider, chosen_region, base_credentials. intros [= <- _].
  destruct c as [rg cr], cfg as [d p wd k s r g wi]; cbn.
  destruct (bool_decide (d = "")); cbn;
    destruct (wi =? 0); cbn;
    destruct (bool_decide (g = "")); cbn;
    destruct (bool_decide (k = "")); cbn;
    destruct (bool_decide (s = "")); cbn;
    destruct (bool_decide (r = "")); cbn; done.
Qed.

Context {World NestedMap : Type}.
Variable GetParametersByPath :
  World → GetParametersByPathInput → World * (GetParametersByPathOutput + error).
Variable Unflatten : flat_map_t → string → NestedMap.

(** X17. The goroutine of [Watch] on a provider built by [Provider] gets
    past its ticker and runs the loop whenever the configured interval is
    not negative, zero included, and panics at the ticker when it is
    negative. On a provider built by [ProviderWithClient], which applies no
    default, it panics already for a zero interval. *)
Theorem Watch_ticker c cfg f c' ps fuel ticks (w : World) :
  Provider (inl c) cfg f = Some (c', ps) →
  (0 ≤ WatchInterval cfg →
   Watch_goroutine GetParametersByPath fuel ticks w ps
     = Watch_loop GetParametersByPath fuel ticks w ps) ∧
  (WatchInterval cfg < 0 →
   Watch_goroutine GetParametersByPath fuel ticks w ps = Panics) ∧
  (WatchInterval cfg ≤ 0 →
   Watch_goroutine GetParametersByPath fuel ticks w (ProviderWithClient cfg f)
     = Panics).
Proof.
  intros H. apply Provider_config in H as (Hcfg & _).
  unfold Watch_goroutine. rewrite Hcfg. simpl. unfold Second.
  repeat split; intros Hw.
  - destruct (WatchInterval cfg =? 0) eqn:E; [done|].
    apply Z.eqb_neq in E. destruct (WatchInterval cfg <=? 0) eqn:E'; [|done].
    apply Z.leb_le in E'. lia.
  - destruct (WatchInterval cfg =? 0) eqn:E; [apply Z.eqb_eq in E; lia|].
    destruct (WatchInterval cfg <=? 0) eqn:E'; [done|].
    apply Z.leb_gt in E'. lia.
  - destruct (WatchInterval cfg <=? 0) eqn:E'; [done|].
    apply Z.leb_gt in E'. lia.
Qed.

(** X18. A [Read] that succeeds on a provider built by [Provider] hands
    [maps.Unflatten] a delimiter that is not empty: the configured one, or
    ["/"] when none was configured. On a provider built by
    [ProviderWithClient] it hands over the configured delimiter as it is,
    empty or not. *)
Theorem Read_delimiter c cfg f c' ps fuel (w : World) w1 i fetched :
  Provider (inl c) cfg f = Some (c', ps) →
  cfg_Path cfg ≠ "" →
  fetch_pages GetParametersByPath fuel w (Read_input cfg) []
    = Returns (w1, i, inl fetched) →
  Forall (keyed f) fetched →
  ∃ (mp : flat_map_t) ps1 ps2 d,
    d ≠ "" ∧
    d = (if bool_decide (Delimiter cfg = "") then "/" else Delimiter cfg) ∧
    Read GetParametersByPath Unflatten fuel w ps
      = Returns (w1, ps1, (Some (Unflatten mp d), None)) ∧
    Read GetParametersByPath Unflatten fuel w (ProviderWithClient cfg f)
      = Returns (w1, ps2, (Some (Unflatten mp (Delimiter cfg)), None)).
Proof.
  intros H Hpath Hpass Hkeyed.
  apply Provider_config in H as (Hcfg & _ & _ & Hcb).
  assert (cfg_Path (config ps) = cfg_Path cfg) as HP by by rewrite Hcfg.
  assert (Read_input (config ps) = Read_input cfg) as HI.
  { unfold Read_input. by rewrite Hcfg. }
  eexists (flat_of f fetched ∅), _, _, _. split; [|split; [reflexivity|split]].
  - by case_bool_decide.
  - erewrite Read_keyed; [|by rewrite HP|by rewrite HI|by rewrite Hcb].
    rewrite Hcb, Hcfg. simpl. reflexivity.
  - erewrite Read_keyed; [reflexivity|done..].
Qed.

End ProviderDefaults.

Lemma ChangeDetector_panics_iff_witness :
  ChangeDetector [Scenario.A1] [Cases.anonymous] = Panics.
Proof.
  apply (ChangeDetector_panics_iff [Scenario.A1] [Cases.anonymous]).
  repeat split; [done..|]. right. apply Exists_cons_hd. reflexivity.
Defined.

Lemma Provider_defaults_witness :
  ∃ ps, Provider (inl Cases.loaded) Cases.bare None = Some (Cases.loaded, ps) ∧
        Delimiter (config ps) = "/" ∧
        WatchInterval (config ps) = 600 * Second.
Proof.
  eexists. split; [reflexivity|].
  destruct (proj2 (Provider_defaults (inl Cases.loaded) Cases.bare None)
              _ _ eq_refl)
    as (_ & _ & _ & _ & Hd & _ & _ & Hw & _).
  split; [by apply Hd | by apply Hw].
Defined.

Lemma Provider_credentials_witness :
  ∃ c' ps,
    Provider (inl Cases.loaded) Cases.with_role None = Some (c', ps) ∧
    Region c' = "eu-west-1" ∧
    Credentials c' =
      NewCredentialsCache
        (NewAssumeRoleProvider "eu-west-1"
           (NewStaticCredentialsProvider "AKIA" "secret" "")
           "arn:aws:iam::1:role/reader").
Proof.
  eexists _, _. split; [reflexivity|].
  apply (Provider_credentials Cases.loaded Cases.with_role None _ _ eq_refl).
Defined.

Lemma Watch_ticker_witness :
  ∃ ps,
    Provider (inl Cases.loaded) Cases.bare None = Some (Cases.loaded, ps) ∧
    Watch_goroutine scripted 1 1 Scenario.two_quiet_ticks ps
      = Watch_loop scripted 1 1 Scenario.two_quiet_ticks ps ∧
    Watch_goroutine scripted 1 1 Scenario.two_quiet_ticks
      (ProviderWithClient Cases.bare None) = Panics.
Proof.
  eexists. split; [reflexivity|].
  destruct (Watch_ticker scripted Cases.loaded Cases.bare None _ _
              1%nat 1%nat Scenario.two_quiet_ticks eq_refl)
    as (Hrun & _ & Hpanic).
  split; [by apply Hrun | by apply Hpanic].
Defined.

Lemma Read_delimiter_witness :
  ∃ (mp : flat_map_t) ps1 ps2 d,
    d ≠ "" ∧
    d = (if bool_decide (Delimiter Cases.bare = "") then "/"
         else Delimiter Cases.bare) ∧
    Read scripted (λ (mp : flat_map_t) (delim : string), (mp, delim)) 3
      Scenario.three_pages
      {| config := set_WatchInterval (600 * Second) (set_Delimiter "/" Cases.bare);
         input := zero_input; params := []; cb := None |}
      = Returns ([], ps1, (Some (mp, d), None)) ∧
    Read scripted (λ (mp : flat_map_t) (delim : string), (mp, delim)) 3
      Scenario.three_pages (ProviderWithClient Cases.bare None)
      = Returns ([], ps2, (Some (mp, Delimiter Cases.bare), None)).
Proof.
  apply (Read_delimiter scripted (λ mp delim, (mp, delim))
           Cases.loaded Cases.bare None Cases.loaded _ 3%nat
           Scenario.three_pages [] (Read_input Cases.bare)
           [Scenario.A1; Scenario.B1; Scenario.C1; Scenario.D1; Scenario.E1]).
  - reflexivity.
  - discriminate.
  - reflexivity.
  - repeat constructor; try (eexists; reflexivity); discriminate.
Defined.
